(** * DarkX player: playback session, queue and shuffle

    A shallow embedding of the [PlayerProvider] component of [src/index.tsx]
    (the playback engine of a local-file music player) and the properties of
    its queue, shuffle, history and stale-track handling.

    Conventions of the embedding.
    - React state is read from the snapshot of the render whose closure runs
      and written to a pending state: a handler is a function of the snapshot
      that yields a [Step] over the pending state.  [setX(v)] overwrites a
      pending field, [setX(prev => ...)] updates it.
    - The audio element behind [audioRef] is mutable: the commands it receives
      are appended to a trace at once.
    - [Math.random()] is an oracle [random : nat -> Random01]; the pending
      state counts the calls made so far.

    The file has the model first (tracks, shuffle, player, handlers, the
    application and its events, the invariants, sample data; then what is
    around the player: the time display, the Import page, the settings and
    their store), then the proofs: the shuffle, the history, each operation
    of the session, what holds of every session the application can reach,
    the parts around the player in the order of the model, and last the
    handlers as the closures of an earlier render run them. *)

From Stdlib Require Import QArith Qround Ascii.
From stdpp Require Import base numbers strings pretty gmap list.

Open Scope nat_scope.

(** ** Tracks *)

(** The [File] object of an imported song: opaque, and lost by the JSON
    round trip of the history. *)
Inductive File := Blob (handle : N).

(** [{ id: Date.now(), title, artist, albumArtUrl, file }] (line 724).  An
    entry of the history read back from [localStorage] carries no [file]. *)
Record Track := {
  id : N;
  title : string;
  artist : string;
  albumArtUrl : string;
  file : option File;
}.

#[global] Instance File_eq_dec : EqDecision File.
Proof. solve_decision. Defined.
#[global] Instance Track_eq_dec : EqDecision Track.
Proof. solve_decision. Defined.

(** ** Randomness *)

(** A result of [Math.random()]: a real of [[0,1)], idealised as the exact
    fraction [numer / (numer + gap + 1)]. *)
Record Random01 := { numer : nat; gap : nat }.

(** [Math.floor(Math.random() * n)] *)
Definition floorTimes (u : Random01) (n : nat) : nat :=
  (numer u * n) `div` (numer u + gap u + 1).

(** ** [shuffleArray] (line 137) *)

Section Shuffle.
Context {A : Type}.
Variable random : nat → Random01.

(** [[array[i], array[j]] = [array[j], array[i]]].  Both indices are below
    the length wherever the loop gets; elsewhere the list is left alone. *)
Definition swap (i j : nat) (array : list A) : list A :=
  match array !! i, array !! j with
  | Some x, Some y => <[j:=x]> (<[i:=y]> array)
  | _, _ => array
  end.

(** The [while (currentIndex !== 0)] loop; [calls] counts the calls of
    [Math.random()] made before this iteration. *)
Fixpoint shuffleLoop (calls currentIndex : nat) (array : list A) : list A :=
  match currentIndex with
  | 0 => array
  | S currentIndex' =>
      let randomIndex := floorTimes (random calls) currentIndex in
      shuffleLoop (S calls) currentIndex' (swap currentIndex' randomIndex array)
  end.

Definition shuffleArray (calls : nat) (array : list A) : list A :=
  shuffleLoop calls (length array) array.
End Shuffle.

(** [[anchor, ...shuffleArray(queue.filter(s => s.id !== anchor.id))]]: the
    expression that [playSong] (line 258) and [toggleShuffle] (line 335) both
    build the shuffled queue with. *)
Definition buildShuffledQueue (random : nat → Random01) (calls : nat)
    (queue : list Track) (anchor : Track) : list Track :=
  let otherSongs := filter (λ s, id s ≠ id anchor) queue in
  anchor :: shuffleArray random calls otherSongs.

(** ** The player: React state, audio element, alerts, random source *)

(** [repeatMode]: ['off'], ['all'], ['one'] (line 157). *)
Inductive RepeatMode := RepeatOff | RepeatAll | RepeatOne.

#[global] Instance RepeatMode_eq_dec : EqDecision RepeatMode.
Proof. solve_decision. Defined.

(** What the session asks of the audio element behind [audioRef]. *)
Inductive AudioCommand :=
| SetSrc (f : File)        (* audioRef.current.src = URL.createObjectURL(f) *)
| Play                     (* audioRef.current.play() *)
| Pause                    (* audioRef.current.pause() *)
| SetCurrentTime (t : Q).  (* audioRef.current.currentTime = t *)

(** The [useState] cells of [PlayerProvider] (lines 149-161), then what lives
    outside React: the commands the audio element has received (oldest
    first), the [alert] dialogs shown, the calls of [Math.random()] made. *)
Record Player := {
  currentSong : option Track;
  isPlaying : bool;
  progress : Q;
  duration : Q;
  isFullPlayerVisible : bool;
  currentQueue : list Track;
  shuffledQueue : list Track;
  isShuffleActive : bool;
  repeatMode : RepeatMode;
  recentlyPlayed : list Track;
  audio : list AudioCommand;
  alerts : nat;
  randomCalls : nat;
}.

(** The state of the first render, with the history that [localStorage] held. *)
Definition initialPlayer (saved : list Track) : Player := {|
  currentSong := None; isPlaying := false; progress := 0%Q; duration := 0%Q;
  isFullPlayerVisible := false; currentQueue := []; shuffledQueue := [];
  isShuffleActive := false; repeatMode := RepeatOff; recentlyPlayed := saved;
  audio := []; alerts := 0; randomCalls := 0 |}.

Definition with_currentSong (v : option Track) (p : Player) : Player := {|
  currentSong := v; isPlaying := isPlaying p; progress := progress p;
  duration := duration p; isFullPlayerVisible := isFullPlayerVisible p;
  currentQueue := currentQueue p; shuffledQueue := shuffledQueue p;
  isShuffleActive := isShuffleActive p; repeatMode := repeatMode p;
  recentlyPlayed := recentlyPlayed p; audio := audio p; alerts := alerts p;
  randomCalls := randomCalls p |}.

Definition with_isPlaying (v : bool) (p : Player) : Player := {|
  currentSong := currentSong p; isPlaying := v; progress := progress p;
  duration := duration p; isFullPlayerVisible := isFullPlayerVisible p;
  currentQueue := currentQueue p; shuffledQueue := shuffledQueue p;
  isShuffleActive := isShuffleActive p; repeatMode := repeatMode p;
  recentlyPlayed := recentlyPlayed p; audio := audio p; alerts := alerts p;
  randomCalls := randomCalls p |}.

Definition with_progress (v : Q) (p : Player) : Player := {|
  currentSong := currentSong p; isPlaying := isPlaying p; progress := v;
  duration := duration p; isFullPlayerVisible := isFullPlayerVisible p;
  currentQueue := currentQueue p; shuffledQueue := shuffledQueue p;
  isShuffleActive := isShuffleActive p; repeatMode := repeatMode p;
  recentlyPlayed := recentlyPlayed p; audio := audio p; alerts := alerts p;
  randomCalls := randomCalls p |}.

Definition with_duration (v : Q) (p : Player) : Player := {|
  currentSong := currentSong p; isPlaying := isPlaying p; progress := progress p;
  duration := v; isFullPlayerVisible := isFullPlayerVisible p;
  currentQueue := currentQueue p; shuffledQueue := shuffledQueue p;
  isShuffleActive := isShuffleActive p; repeatMode := repeatMode p;
  recentlyPlayed := recentlyPlayed p; audio := audio p; alerts := alerts p;
  randomCalls := randomCalls p |}.

Definition with_isFullPlayerVisible (v : bool) (p : Player) : Player := {|
  currentSong := currentSong p; isPlaying := isPlaying p; progress := progress p;
  duration := duration p; isFullPlayerVisible := v;
  currentQueue := currentQueue p; shuffledQueue := shuffledQueue p;
  isShuffleActive := isShuffleActive p; repeatMode := repeatMode p;
  recentlyPlayed := recentlyPlayed p; audio := audio p; alerts := alerts p;
  randomCalls := randomCalls p |}.

Definition with_currentQueue (v : list Track) (p : Player) : Player := {|
  currentSong := currentSong p; isPlaying := isPlaying p; progress := progress p;
  duration := duration p; isFullPlayerVisible := isFullPlayerVisible p;
  currentQueue := v; shuffledQueue := shuffledQueue p;
  isShuffleActive := isShuffleActive p; repeatMode := repeatMode p;
  recentlyPlayed := recentlyPlayed p; audio := audio p; alerts := alerts p;
  randomCalls := randomCalls p |}.

Definition with_shuffledQueue (v : list Track) (p : Player) : Player := {|
  currentSong := currentSong p; isPlaying := isPlaying p; progress := progress p;
  duration := duration p; isFullPlayerVisible := isFullPlayerVisible p;
  currentQueue := currentQueue p; shuffledQueue := v;
  isShuffleActive := isShuffleActive p; repeatMode := repeatMode p;
  recentlyPlayed := recentlyPlayed p; audio := audio p; alerts := alerts p;
  randomCalls := randomCalls p |}.

Definition with_isShuffleActive (v : bool) (p : Player) : Player := {|
  currentSong := currentSong p; isPlaying := isPlaying p; progress := progress p;
  duration := duration p; isFullPlayerVisible := isFullPlayerVisible p;
  currentQueue := currentQueue p; shuffledQueue := shuffledQueue p;
  isShuffleActive := v; repeatMode := repeatMode p;
  recentlyPlayed := recentlyPlayed p; audio := audio p; alerts := alerts p;
  randomCalls := randomCalls p |}.

Definition with_repeatMode (v : RepeatMode) (p : Player) : Player := {|
  currentSong := currentSong p; isPlaying := isPlaying p; progress := progress p;
  duration := duration p; isFullPlayerVisible := isFullPlayerVisible p;
  currentQueue := currentQueue p; shuffledQueue := shuffledQueue p;
  isShuffleActive := isShuffleActive p; repeatMode := v;
  recentlyPlayed := recentlyPlayed p; audio := audio p; alerts := alerts p;
  randomCalls := randomCalls p |}.

Definition with_recentlyPlayed (v : list Track) (p : Player) : Player := {|
  currentSong := currentSong p; isPlaying := isPlaying p; progress := progress p;
  duration := duration p; isFullPlayerVisible := isFullPlayerVisible p;
  currentQueue := currentQueue p; shuffledQueue := shuffledQueue p;
  isShuffleActive := isShuffleActive p; repeatMode := repeatMode p;
  recentlyPlayed := v; audio := audio p; alerts := alerts p;
  randomCalls := randomCalls p |}.

Definition with_audio (v : list AudioCommand) (p : Player) : Player := {|
  currentSong := currentSong p; isPlaying := isPlaying p; progress := progress p;
  duration := duration p; isFullPlayerVisible := isFullPlayerVisible p;
  currentQueue := currentQueue p; shuffledQueue := shuffledQueue p;
  isShuffleActive := isShuffleActive p; repeatMode := repeatMode p;
  recentlyPlayed := recentlyPlayed p; audio := v; alerts := alerts p;
  randomCalls := randomCalls p |}.

Definition with_alerts (v : nat) (p : Player) : Player := {|
  currentSong := currentSong p; isPlaying := isPlaying p; progress := progress p;
  duration := duration p; isFullPlayerVisible := isFullPlayerVisible p;
  currentQueue := currentQueue p; shuffledQueue := shuffledQueue p;
  isShuffleActive := isShuffleActive p; repeatMode := repeatMode p;
  recentlyPlayed := recentlyPlayed p; audio := audio p; alerts := v;
  randomCalls := randomCalls p |}.

Definition with_randomCalls (v : nat) (p : Player) : Player := {|
  currentSong := currentSong p; isPlaying := isPlaying p; progress := progress p;
  duration := duration p; isFullPlayerVisible := isFullPlayerVisible p;
  currentQueue := currentQueue p; shuffledQueue := shuffledQueue p;
  isShuffleActive := isShuffleActive p; repeatMode := repeatMode p;
  recentlyPlayed := recentlyPlayed p; audio := audio p; alerts := alerts p;
  randomCalls := v |}.

(** ** Steps of a handler *)

(** A handler either returns or throws; the updates and commands it issued
    before stay issued either way. *)
Inductive Outcome := Returned (p : Player) | Threw (p : Player).

Definition Step : Type := Player → Outcome.

Definition pending (o : Outcome) : Player :=
  match o with Returned p | Threw p => p end.

Definition skip : Step := Returned.
Definition throw : Step := Threw.

Definition andThen (a b : Step) : Step := λ p,
  match a p with
  | Returned p' => b p'
  | Threw p' => Threw p'
  end.

Declare Scope step_scope.
Delimit Scope step_scope with step.
Bind Scope step_scope with Step.
Notation "a ;; b" := (andThen a b)
  (at level 100, b at level 200, right associativity) : step_scope.
Open Scope step_scope.

Definition setCurrentSong (v : option Track) : Step := λ p, Returned (with_currentSong v p).
Definition setIsPlaying (v : bool) : Step := λ p, Returned (with_isPlaying v p).
Definition setProgress (v : Q) : Step := λ p, Returned (with_progress v p).
Definition setDuration (v : Q) : Step := λ p, Returned (with_duration v p).
Definition setIsFullPlayerVisible (v : bool) : Step :=
  λ p, Returned (with_isFullPlayerVisible v p).
Definition setCurrentQueue (v : list Track) : Step := λ p, Returned (with_currentQueue v p).
Definition setShuffledQueue (v : list Track) : Step := λ p, Returned (with_shuffledQueue v p).
Definition setIsShuffleActive (v : bool) : Step := λ p, Returned (with_isShuffleActive v p).
Definition setRepeatMode (v : RepeatMode) : Step := λ p, Returned (with_repeatMode v p).

(** [setRecentlyPlayed(prev => f(prev))] *)
Definition setRecentlyPlayed (f : list Track → list Track) : Step :=
  λ p, Returned (with_recentlyPlayed (f (recentlyPlayed p)) p).

Definition tell (c : AudioCommand) : Step := λ p, Returned (with_audio (audio p ++ [c]) p).

Definition alert : Step := λ p, Returned (with_alerts (S (alerts p)) p).

(** [audioRef.current.src = URL.createObjectURL(song.file)]: the call throws
    a [TypeError] on [undefined]. *)
Definition loadSource (song : Track) : Step :=
  match file song with
  | Some f => tell (SetSrc f)
  | None => throw
  end.

(** ** JavaScript array helpers *)

(** [array.findIndex(pred)]: the first index whose element satisfies [pred],
    or [-1]. *)
Definition findIndex {A} (P : A → Prop) `{∀ x, Decision (P x)} (array : list A) : Z :=
  match list_find P array with
  | Some (i, _) => Z.of_nat i
  | None => (-1)%Z
  end.

(** [array.find(pred)] *)
Definition find {A} (P : A → Prop) `{∀ x, Decision (P x)} (array : list A) : option A :=
  snd <$> list_find P array.

(** [array[i]], [undefined] outside the array. *)
Definition at_index {A} (array : list A) (i : Z) : option A :=
  if decide (0 ≤ i)%Z then array !! Z.to_nat i else None.

(** ** The handlers of [PlayerProvider] *)

Section Handlers.
Variable random : nat → Random01.

(** [setShuffledQueue([anchor, ...shuffleArray(otherSongs)])]: the shuffle
    draws [otherSongs.length] numbers. *)
Definition setShuffledQueueAround (queue : list Track) (anchor : Track) : Step := λ p,
  let otherSongs := filter (λ s, id s ≠ id anchor) queue in
  Returned (with_randomCalls (randomCalls p + length otherSongs)
             (with_shuffledQueue (buildShuffledQueue random (randomCalls p) queue anchor) p)).

(** [songToPlay.file ? songToPlay : songs.find(s => s.id === songToPlay.id)]
    (line 263); [None] is the stale track. *)
Definition resolve (songs : list Track) (songToPlay : Track) : option Track :=
  match file songToPlay with
  | Some _ => Some songToPlay
  | None => find (λ s, id s = id songToPlay) songs
  end.

(** Line 319. *)
Definition togglePlayPause (render : Player) : Step :=
  match currentSong render with
  | None => skip
  | Some _ =>
      (if isPlaying render then tell Pause else tell Play) ;;
      setIsPlaying (negb (isPlaying render))
  end.

(** [prev => prev.filter(s => s.id !== songToPlay.id)] (line 267) *)
Definition evict (songToPlay : Track) (prev : list Track) : list Track :=
  filter (λ s, id s ≠ id songToPlay) prev.

(** The updater of line 280: the song goes first, no other entry keeps its
    id, and [slice(0, 50)] caps the list. *)
Definition promote (song : Track) (prev : list Track) : list Track :=
  let filtered := filter (λ s, id s ≠ id song) prev in
  let newHistory := song :: filtered in
  take 50 newHistory.

(** [currentSong && currentSong.id === song.id] *)
Definition isCurrent (render : Player) (song : Track) : bool :=
  match currentSong render with
  | Some current => bool_decide (id current = id song)
  | None => false
  end.

(** Line 254.  [queue = None] is a call without the second argument. *)
Definition playSong (songs : list Track) (render : Player)
    (songToPlay : Track) (queue : option (list Track)) : Step :=
  match queue with
  | Some queue =>
      setCurrentQueue queue ;;
      (if isShuffleActive render then setShuffledQueueAround queue songToPlay else skip)
  | None => skip
  end ;;
  match resolve songs songToPlay with
  | None =>
      alert ;;
      setRecentlyPlayed (evict songToPlay)
  | Some song =>
      (if isCurrent render song then togglePlayPause render
       else
         setCurrentSong (Some song) ;;
         loadSource song ;;
         tell Play ;;
         setIsPlaying true) ;;
      setRecentlyPlayed (promote song)
  end.

(** [isShuffleActive ? shuffledQueue : currentQueue] *)
Definition activeQueue (render : Player) : list Track :=
  if isShuffleActive render then shuffledQueue render else currentQueue render.

(** [playSong(activeQueue[index], currentQueue)]; reading [.id] of
    [undefined] would throw. *)
Definition playAt (songs : list Track) (render : Player) (index : Z) : Step :=
  match at_index (activeQueue render) index with
  | Some song => playSong songs render song (Some (currentQueue render))
  | None => throw
  end.

(** Line 287. *)
Definition playNext (songs : list Track) (render : Player) : Step :=
  match currentSong render with
  | None => skip
  | Some current =>
      if decide (length (activeQueue render) = 0) then skip
      else
        let currentIndex := findIndex (λ s, id s = id current) (activeQueue render) in
        if decide (currentIndex = -1)%Z then skip
        else
          let nextIndex := (currentIndex + 1)%Z in
          if decide (nextIndex >= Z.of_nat (length (activeQueue render)))%Z then
            match repeatMode render with
            | RepeatAll => playAt songs render 0
            | _ => setIsPlaying false
            end
          else playAt songs render nextIndex
  end.

(** Line 307.  [%] is the remainder that takes the sign of the dividend. *)
Definition playPrevious (songs : list Track) (render : Player) : Step :=
  match currentSong render with
  | None => skip
  | Some current =>
      if decide (length (activeQueue render) = 0) then skip
      else
        let currentIndex := findIndex (λ s, id s = id current) (activeQueue render) in
        if decide (currentIndex = -1)%Z then skip
        else
          let len := Z.of_nat (length (activeQueue render)) in
          let prevIndex := ((currentIndex - 1 + len) `rem` len)%Z in
          playAt songs render prevIndex
  end.

(** Line 329. *)
Definition toggleShuffle (render : Player) : Step :=
  let newShuffleState := negb (isShuffleActive render) in
  setIsShuffleActive newShuffleState ;;
  match newShuffleState, currentSong render with
  | true, Some current => setShuffledQueueAround (currentQueue render) current
  | _, _ => setShuffledQueue []
  end.

(** Line 344: [modes[(modes.indexOf(repeatMode) + 1) % modes.length]]. *)
Definition toggleRepeat (render : Player) : Step :=
  let modes := [RepeatOff; RepeatAll; RepeatOne] in
  let currentModeIndex := findIndex (λ m, m = repeatMode render) modes in
  let nextModeIndex := ((currentModeIndex + 1) `rem` Z.of_nat (length modes))%Z in
  match at_index modes nextModeIndex with
  | Some mode => setRepeatMode mode
  | None => skip
  end.

(** Line 351. *)
Definition seek (time : Q) : Step :=
  tell (SetCurrentTime time) ;; setProgress time.

Definition openFullPlayer : Step := setIsFullPlayerVisible true.
Definition closeFullPlayer : Step := setIsFullPlayerVisible false.

(** Line 197: the listener of the audio element's [ended] event. *)
Definition handleEnded (songs : list Track) (render : Player) : Step :=
  match repeatMode render with
  | RepeatOne => tell (SetCurrentTime 0) ;; tell Play
  | _ => playNext songs render
  end.

Definition handleTimeUpdate (currentTime : Q) : Step := setProgress currentTime.
Definition handleLoadedMetadata (duration : Q) : Step := setDuration duration.

(** An event runs a handler of the render on screen: the snapshot it reads
    is the state it starts from. *)
Definition dispatch (handler : Player → Step) (p : Player) : Player :=
  pending (handler p p).

(** The operations of the session as the user's clicks invoke them. *)
Definition play (songs : list Track) (songToPlay : Track)
    (queue : option (list Track)) : Player → Player :=
  dispatch (λ render, playSong songs render songToPlay queue).
Definition next (songs : list Track) : Player → Player := dispatch (playNext songs).
Definition previous (songs : list Track) : Player → Player := dispatch (playPrevious songs).
Definition shuffle : Player → Player := dispatch toggleShuffle.
Definition ended (songs : list Track) : Player → Player := dispatch (handleEnded songs).
End Handlers.

Definition playPause : Player → Player := dispatch togglePlayPause.
Definition cycleRepeat : Player → Player := dispatch toggleRepeat.

(** ** The application around the player *)

(** [AppWrapper] (line 1157) holds the library [songs] and hands it to
    [PlayerProvider] as a prop; [stored] is the history under the key
    [recentlyPlayedSongs] of [localStorage], which outlives the page. *)
Record App := {
  library : list Track;
  player : Player;
  stored : list Track;
}.

(** [const { file, ...storableSong } = song] (line 175): what the JSON of the
    history keeps of a song. *)
Definition storable (song : Track) : Track :=
  {| id := id song; title := title song; artist := artist song;
     albumArtUrl := albumArtUrl song; file := None |}.

(** What happens to the application: the user's clicks, the signals of the
    audio element, the keys of the operating system's media session. *)
Inductive Event :=
| SaveImport (now : N) (title artist : string) (editingFile : File)
| ClickSong (index : nat)          (* an item of the Songs page *)
| ClickRecent (index : nat)        (* an item of Recently Played *)
| PressPlayPause
| PressNext
| PressPrevious
| PressShuffle
| PressRepeat
| DragTimeline (time : Q)
| OpenFull
| CloseFull
| AudioTimeUpdate (currentTime : Q)
| AudioLoadedMetadata (duration : Q)
| AudioEnded (staleIsPlaying : bool) (staleSongs : nat)
| MediaPlayPause
| MediaNext (staleRepeatMode : RepeatMode) (staleSongs : nat)
| MediaPrevious (staleSongs : nat)
| StoreHistory                     (* the effect of line 171, its write accepted *)
| Reload.                          (* the page is loaded anew *)

(** [handleSaveMetadata] (line 723) and [addSong] (line 1161). *)
Definition addSong (now : N) (title artist : string) (editingFile : File)
    (songs : list Track) : list Track :=
  let newSong := {| id := now; title := title; artist := artist;
                    albumArtUrl := "https://placehold.co/64x64/png";
                    file := Some editingFile |} in
  songs ++ [newSong].

(** The application as it starts: an empty library, and for history what
    [localStorage] holds (line 161). *)
Definition startApp (saved : list Track) : App :=
  {| library := []; player := initialPlayer saved; stored := saved |}.

Section Events.
Variable random : nat → Random01.

(** A listener that an effect attached runs the closure of the render that
    attached it.  The effect of line 208 re-attaches [handleEnded] when
    [currentSong], [currentQueue], [repeatMode], [isShuffleActive] or
    [shuffledQueue] change, the effect of line 231 re-registers the media
    keys when [currentSong], [isPlaying], [currentQueue], [isShuffleActive]
    or [shuffledQueue] change: what such a closure reads outside these (the
    [songs] prop, [isPlaying] for the first, [repeatMode] for the second) may
    be of an earlier render.  The events carry those stale values; the
    library of an earlier render is a prefix of today's.  A reload starts
    the application again on what is stored; the random source goes on
    with numbers it has not returned yet. *)
Definition fire (e : Event) (app : App) : App :=
  let songs := library app in
  let p := player app in
  let to (p' : Player) := {| library := songs; player := p'; stored := stored app |} in
  match e with
  | SaveImport now title artist editingFile =>
      {| library := addSong now title artist editingFile songs; player := p;
         stored := stored app |}
  | ClickSong index =>
      match songs !! index with
      | Some song => to (play random songs song (Some songs) p)
      | None => app
      end
  | ClickRecent index =>
      match recentlyPlayed p !! index with
      | Some song => to (play random songs song (Some (recentlyPlayed p)) p)
      | None => app
      end
  | PressPlayPause => to (playPause p)
  | PressNext => to (next random songs p)
  | PressPrevious => to (previous random songs p)
  | PressShuffle => to (shuffle random p)
  | PressRepeat => to (cycleRepeat p)
  | DragTimeline time => to (pending (seek time p))
  | OpenFull => to (pending (openFullPlayer p))
  | CloseFull => to (pending (closeFullPlayer p))
  | AudioTimeUpdate currentTime => to (pending (handleTimeUpdate currentTime p))
  | AudioLoadedMetadata duration => to (pending (handleLoadedMetadata duration p))
  | AudioEnded staleIsPlaying staleSongs =>
      to (pending (handleEnded random (take staleSongs songs)
                     (with_isPlaying staleIsPlaying p) p))
  | MediaPlayPause => to (playPause p)
  | MediaNext staleRepeatMode staleSongs =>
      to (pending (playNext random (take staleSongs songs)
                     (with_repeatMode staleRepeatMode p) p))
  | MediaPrevious staleSongs =>
      to (pending (playPrevious random (take staleSongs songs) p p))
  | StoreHistory =>
      {| library := songs; player := p; stored := storable <$> recentlyPlayed p |}
  | Reload =>
      {| library := [];
         player := with_randomCalls (randomCalls p) (initialPlayer (stored app));
         stored := stored app |}
  end.

Definition run (events : list Event) (app : App) : App :=
  foldl (λ a e, fire e a) app events.
End Events.

(** ** What holds of every session *)

(** A track that carries a file is one of the library: files come from the
    import alone. *)
Definition known (songs : list Track) (t : Track) : Prop :=
  is_Some (file t) → t ∈ songs.

Record WellFormed (songs : list Track) (p : Player) : Prop := {
  wf_library : Forall (λ s, is_Some (file s)) songs;
  wf_current : ∀ c, currentSong p = Some c → c ∈ songs;
  wf_queue : Forall (known songs) (currentQueue p);
  wf_shuffled : Forall (known songs) (shuffledQueue p);
  wf_recent : Forall (known songs) (recentlyPlayed p);
}.

(** The application: a well-formed session, and a stored history without
    files. *)
Definition AppOk (app : App) : Prop :=
  WellFormed (library app) (player app) ∧
  Forall (λ t, file t = None) (stored app).

(** The history holds at most 50 entries, no two of one id. *)
Definition HistoryOk (history : list Track) : Prop :=
  length history ≤ 50 ∧ NoDup (id <$> history).

(** Under shuffle, the shuffled queue starts with a track of the current
    song's id. *)
Definition Anchored (p : Player) : Prop :=
  isShuffleActive p = true →
  ∀ c, currentSong p = Some c →
  ∃ h, head (shuffledQueue p) = Some h ∧ id h = id c.

(** The session is anchored as long as it has shown no alert. *)
Definition QuietlyAnchored (app : App) : Prop :=
  alerts (player app) = 0 → Anchored (player app).

(** ** Sample data *)

(** Three songs as the import makes them, and an entry of the history of an
    earlier session. *)
Definition songA : Track :=
  {| id := 1; title := "A"; artist := "x";
     albumArtUrl := "https://placehold.co/64x64/png"; file := Some (Blob 1) |}.
Definition songB : Track :=
  {| id := 2; title := "B"; artist := "y";
     albumArtUrl := "https://placehold.co/64x64/png"; file := Some (Blob 2) |}.
Definition songC : Track :=
  {| id := 3; title := "C"; artist := "z";
     albumArtUrl := "https://placehold.co/64x64/png"; file := Some (Blob 3) |}.
Definition staleS : Track :=
  {| id := 9; title := "S"; artist := "w";
     albumArtUrl := "https://placehold.co/64x64/png"; file := None |}.

(** [songA] as the JSON of the history would hold it: without its file. *)
Definition strippedA : Track :=
  {| id := 1; title := "A"; artist := "x";
     albumArtUrl := "https://placehold.co/64x64/png"; file := None |}.

(** A random source: the [n]-th call returns [n / (n + 2)]. *)
Definition sampleRandom (n : nat) : Random01 := {| numer := n; gap := 1 |}.

(** A session that plays [songA] from the queue [queue]. *)
Definition playingA (queue : list Track) (mode : RepeatMode) : Player := {|
  currentSong := Some songA; isPlaying := true; progress := 0%Q; duration := 0%Q;
  isFullPlayerVisible := false; currentQueue := queue; shuffledQueue := [];
  isShuffleActive := false; repeatMode := mode; recentlyPlayed := [songA];
  audio := [SetSrc (Blob 1); Play]; alerts := 0; randomCalls := 0 |}.

(** A session.  In an earlier one a song was imported and played, the history
    was stored and the page loaded anew: the history now holds [staleS].
    Then [songA] is imported and clicked in the Songs list, and shuffle is
    switched on ([session2]); [staleS] is clicked in the Recently Played
    list ([session3]); repeat is switched to all ([session4]). *)
Definition earlierSession : list Event :=
  [SaveImport 9 "S" "w" (Blob 9); ClickSong 0; StoreHistory; Reload].
Definition sampleStart : list Event :=
  [SaveImport 1 "A" "x" (Blob 1); ClickSong 0; PressShuffle].
Definition sampleApp2 : App := run sampleRandom sampleStart (startApp [staleS]).
Definition sampleApp3 : App := fire sampleRandom (ClickRecent 1) sampleApp2.
Definition sampleApp4 : App := fire sampleRandom PressRepeat sampleApp3.
Definition session2 : Player := player sampleApp2.
Definition session3 : Player := player sampleApp3.
Definition session4 : Player := player sampleApp4.

(** A session under shuffle: [songA] plays, the plain queue is [A, B, C] and
    the shuffled queue is [A, C, B]. *)
Definition shufflingA : Player :=
  with_shuffledQueue [songA; songC; songB]
    (with_isShuffleActive true (playingA [songA; songB; songC] RepeatOff)).

(** ** Time display *)

(** A time of the audio element ([currentTime], [duration]) is a finite
    double, taken as the rational it denotes.  The code computes on doubles,
    the model on rationals: the two agree for the times from zero up to
    [2^53] seconds, and the properties of the display are stated for these.
    There [%] is exact, as it is for all doubles, and the quotient by 60,
    rounded to a double, has the integer part of the exact quotient.  For
    were it rounded up to an integer [k], the time would be a double below
    [60 * k], which is a double too: the two are a step of the doubles below
    [60 * k] apart or more, and a sixtieth of that step is more than half a
    step of the doubles below [k], which is the most that rounding adds.
    (From about [60 * 2^50] seconds on the rounded quotient does reach the
    next integer.) *)

(** The integer part, as the remainder operator [%] takes it. *)
Definition truncate (q : Q) : Z := if Qle_bool 0 q then Qfloor q else Qceiling q.

(** [timeInSeconds % 60]: the remainder has the sign of the dividend. *)
Definition modulo60 (timeInSeconds : Q) : Q :=
  (timeInSeconds - inject_Z (60 * truncate (timeInSeconds / 60)))%Q.

(** The decimal digit of a number below ten. *)
Definition digit (n : Z) : ascii := pretty_N_char (Z.to_N n).

(** [formatTime] of [FullPlayer] (line 504).  A template literal prints an
    integer below [2^53] with all its digits. *)
Definition formatTime (timeInSeconds : Q) : string :=
  let minutes := Qfloor (timeInSeconds / 60) in
  let seconds := Qfloor (modulo60 timeInSeconds) in
  pretty minutes +:+ ":" +:+ (if decide (seconds < 10)%Z then "0" else "") +:+ pretty seconds.

(** [progressPercent] of [MiniPlayer] (line 451):
    [duration > 0 ? (progress / duration) * 100 : 0]. *)
Definition progressPercent (p : Player) : Q :=
  if Qlt_le_dec 0 (duration p) then (progress p / duration p * 100)%Q else 0%Q.

(** ** The Import page *)

(** A [File] of the file input: its name, and the object that the song
    keeps. *)
Record PickedFile := { name : string; content : File }.

(** A character that [[^/.]] matches. *)
Definition plainChar (c : ascii) : bool :=
  negb (Ascii.eqb c "/") && negb (Ascii.eqb c ".").

Fixpoint allPlain (s : string) : bool :=
  match s with
  | EmptyString => true
  | String c s' => plainChar c && allPlain s'
  end.

(** [/\.[^/.]+$/] matches at the start of [s]: a dot, then one character or
    more, none of them [/] or [.], up to the end of [s]. *)
Definition extensionAt (s : string) : bool :=
  match s with
  | String "." (String c s') => allPlain (String c s')
  | _ => false
  end.

(** [file.name.replace(/\.[^/.]+$/, "")] (line 657): the leftmost match is
    cut out, and a match runs to the end of the name. *)
Fixpoint withoutExtension (fileName : string) : string :=
  if extensionAt fileName then EmptyString
  else match fileName with
       | EmptyString => EmptyString
       | String c s' => String c (withoutExtension s')
       end.

(** [activeItem] of [AppWrapper] (line 1158): one of the four items of
    [BottomNavBar]. *)
Inductive NavItem := HomeItem | SongsItem | ImportItem | SettingsItem.

#[global] Instance NavItem_eq_dec : EqDecision NavItem.
Proof. solve_decision. Defined.

(** The state of [Import] (line 707) and of the [EditModal] it renders
    (line 651), whose [title] and [artist] are [formTitle] and [formArtist]
    here. *)
Record ImportForm := {
  selectedFiles : list PickedFile;
  editingFile : option PickedFile;
  formTitle : string;
  formArtist : string;
}.

(** The state of a render that mounts [Import]. *)
Definition mountImport : ImportForm :=
  {| selectedFiles := []; editingFile := None; formTitle := ""; formArtist := "" |}.

(** [handleFileChange] (line 711); the change of [editingFile] runs the
    effect of [EditModal] (line 654), which fills the two fields in. *)
Definition handleFileChange (files : list PickedFile) (form : ImportForm) : ImportForm :=
  match files with
  | [] => form
  | first :: _ =>
      {| selectedFiles := files; editingFile := Some first;
         formTitle := withoutExtension (name first);
         formArtist := "Unknown Artist" |}
  end.

(** [handleCloseModal] (line 719). *)
Definition handleCloseModal (form : ImportForm) : ImportForm :=
  {| selectedFiles := selectedFiles form; editingFile := None;
     formTitle := formTitle form; formArtist := formArtist form |}.

Definition setTitle (text : string) (form : ImportForm) : ImportForm :=
  {| selectedFiles := selectedFiles form; editingFile := editingFile form;
     formTitle := text; formArtist := formArtist form |}.

Definition setArtist (text : string) (form : ImportForm) : ImportForm :=
  {| selectedFiles := selectedFiles form; editingFile := editingFile form;
     formTitle := formTitle form; formArtist := text |}.

(** The application with what [AppWrapper] and the Import page hold besides
    the library. *)
Record Screen := {
  app : App;
  activeItem : NavItem;
  form : ImportForm;
}.

(** [setActiveItem]: [renderContent] (line 1123) mounts [Import] under the
    item Import alone, so its state is lost once another item is shown. *)
Definition setActiveItem (item : NavItem) (s : Screen) : Screen :=
  {| app := app s; activeItem := item;
     form := if decide (item = activeItem s) then form s else mountImport |}.

(** [handleSave] of [EditModal] (line 666) and [handleSaveMetadata]
    (line 723) with [addSong] (line 1161): [now] is what [Date.now()]
    returns.  Without a file the modal renders nothing (line 662), and
    there is no form to submit. *)
Definition handleSaveMetadata (now : N) (s : Screen) : Screen :=
  match editingFile (form s) with
  | None => s
  | Some editing =>
      setActiveItem SongsItem
        {| app := {| library := addSong now (formTitle (form s)) (formArtist (form s))
                                  (content editing) (library (app s));
                     player := player (app s); stored := stored (app s) |};
           activeItem := activeItem s;
           form := handleCloseModal
                     {| selectedFiles := []; editingFile := editingFile (form s);
                        formTitle := formTitle (form s);
                        formArtist := formArtist (form s) |} |}
  end.

(** What the user does on the navigation bar and the Import page. *)
Inductive Gesture :=
| Navigate (item : NavItem)
| ChooseFiles (files : list PickedFile)   (* the file input changes *)
| TypeTitle (text : string)
| TypeArtist (text : string)
| CancelModal
| SubmitModal (now : N).

Definition withForm (f : ImportForm → ImportForm) (s : Screen) : Screen :=
  {| app := app s; activeItem := activeItem s; form := f (form s) |}.

(** The file input is on the Import page, the fields and buttons of the
    modal are there while a file is edited. *)
Definition gesture (g : Gesture) (s : Screen) : Screen :=
  match g with
  | Navigate item => setActiveItem item s
  | ChooseFiles files =>
      if decide (activeItem s = ImportItem) then withForm (handleFileChange files) s
      else s
  | TypeTitle text =>
      match editingFile (form s) with
      | Some _ => withForm (setTitle text) s
      | None => s
      end
  | TypeArtist text =>
      match editingFile (form s) with
      | Some _ => withForm (setArtist text) s
      | None => s
      end
  | CancelModal =>
      match editingFile (form s) with
      | Some _ => withForm handleCloseModal s
      | None => s
      end
  | SubmitModal now => handleSaveMetadata now s
  end.

Definition gestures (gs : list Gesture) (s : Screen) : Screen :=
  foldl (λ s g, gesture g s) s gs.

(** The gestures that fill the fields of the modal in. *)
Definition isTyping (g : Gesture) : Prop :=
  match g with
  | TypeTitle _ | TypeArtist _ => True
  | _ => False
  end.

(** What a field of the modal holds after the typing: the text that was
    typed into it last, or what it held. *)
Definition typedTitle (typing : list Gesture) (held : string) : string :=
  foldl (λ text g, match g with TypeTitle typed => typed | _ => text end) held typing.

Definition typedArtist (typing : list Gesture) (held : string) : string :=
  foldl (λ text g, match g with TypeArtist typed => typed | _ => text end) held typing.

(** ** Settings *)

(** A value of a settings object as the application makes it: a colour, a
    font or a position (strings: those of the defaults, and
    [e.target.value] of a colour input or of the select), a size in pixels
    or per cent (whole numbers: those of the defaults, and
    [Number(e.target.value)] of a range input), a switch
    ([e.target.checked]).  What else [JSON.parse] can return ([null],
    fractions, numbers beyond the doubles, nested values) gets into a
    settings object only from a store that another hand than the
    application's has written: the sessions below start on an empty store.
    Of an object of such values [JSON.parse(JSON.stringify(s))] is [s] key
    by key, so the store is taken to hold the object itself. *)
Inductive JsValue := JsString (s : string) | JsNumber (n : Z) | JsBool (b : bool).

(** A settings object, by its keys. *)
Abbreviation Settings := (gmap string JsValue).

(** [{ ...base, ...over }]: the later spread wins. *)
Definition spread (base over : Settings) : Settings := over ∪ base.

(** Line 14. *)
Definition defaultAppearanceSettings : Settings :=
  list_to_map [
    ("theme", JsString "light");
    ("appBgColor", JsString "#f0f2f5");
    ("contentBgColor", JsString "#ffffff");
    ("textColor", JsString "#333333");
    ("textSecondaryColor", JsString "#666666");
    ("fontFamily", JsString "Roboto");
    ("buttonPrimaryBg", JsString "#ff3b30");
    ("buttonPrimaryText", JsString "#ffffff");
    ("buttonSecondaryBg", JsString "#e9e9eb");
    ("buttonSecondaryText", JsString "#333333");
    ("buttonBorderRadius", JsNumber 8);
    ("borderColor", JsString "#e0e0e0");
    ("borderThickness", JsNumber 1);
    ("accentColor", JsString "#ff3b30");
    ("enableAnimations", JsBool true) ].

(** Line 38. *)
Definition darkThemeSettings : Settings :=
  spread defaultAppearanceSettings
    (list_to_map [
       ("theme", JsString "dark");
       ("appBgColor", JsString "#121212");
       ("contentBgColor", JsString "#1e1e1e");
       ("textColor", JsString "#e0e0e0");
       ("textSecondaryColor", JsString "#a0a0a0");
       ("buttonPrimaryBg", JsString "#ff453a");
       ("buttonSecondaryBg", JsString "#3a3a3c");
       ("buttonSecondaryText", JsString "#e0e0e0");
       ("borderColor", JsString "#444444");
       ("accentColor", JsString "#ff453a") ]).

(** Line 110. *)
Definition defaultPlayerSettings : Settings :=
  list_to_map [
    ("backgroundColor", JsString "#ffffff");
    ("buttonColor", JsString "#ff3b30");
    ("accentColor", JsString "#ff9500");
    ("textColor", JsString "#000000");
    ("fullPlayerSize", JsNumber 80);
    ("miniPlayerPosition", JsString "bottom-stretched");
    ("titleFontSize", JsNumber 24);
    ("artistFontSize", JsNumber 18);
    ("showShuffle", JsBool true);
    ("showRepeat", JsBool true);
    ("shuffleButtonColor", JsString "#ff9500");
    ("repeatButtonColor", JsString "#ff9500");
    ("progressThickness", JsNumber 4);
    ("progressColor", JsString "#ff3b30");
    ("timelineBgColor", JsString "#e0e0e0");
    ("timelineThumbColor", JsString "#ff3b30");
    ("enableAnimations", JsBool true) ].

(** The initial state of both settings (lines 59 and 184): what
    [localStorage] holds under the key is spread over the defaults.  [saved]
    is the object that [JSON.parse] returns; [None] stands for no entry, or
    one that does not parse. *)
Definition loadSettings (defaults : Settings) (saved : option Settings) : Settings :=
  match saved with
  | Some savedSettings => spread defaults savedSettings
  | None => defaults
  end.

(** A settings object that has every key of the defaults. *)
Definition complete (defaults s : Settings) : Prop :=
  ∀ key, is_Some (defaults !! key) → is_Some (s !! key).

(** *** [AppearanceProvider] (line 58) *)

(** The object that the state holds: one of the two constants of the
    module, or an object that a spread has built, which is no object that
    was there before. *)
Inductive SettingsObject :=
| TheDefaults
| TheDarkTheme
| Built (s : Settings).

Definition valueOf (o : SettingsObject) : Settings :=
  match o with
  | TheDefaults => defaultAppearanceSettings
  | TheDarkTheme => darkThemeSettings
  | Built s => s
  end.

(** [Object.is(a, b)] *)
Definition sameObject (a b : SettingsObject) : bool :=
  match a, b with
  | TheDefaults, TheDefaults | TheDarkTheme, TheDarkTheme => true
  | _, _ => false
  end.

(** [localStorage.setItem(key, JSON.stringify(value))]: the store takes the
    entry, or it refuses it (the quota is used up, the store is switched
    off) and the call throws; it holds then what it held. *)
Definition setItem (accepted : bool) (value : Settings)
    (store : option Settings) : option Settings :=
  if accepted then Some value else store.

(** [settings], and what [localStorage] holds under [appearanceSettings]. *)
Record Appearance := {
  settings : SettingsObject;
  appearanceStore : option Settings;
}.

(** [setSettings] and the effect of line 90 that the change of state runs:
    it writes the settings whenever the state holds another object than in
    the render before, and catches what a refused write throws. *)
Definition setSettings (next : SettingsObject) (accepted : bool)
    (a : Appearance) : Appearance :=
  {| settings := next;
     appearanceStore :=
       if sameObject (settings a) next then appearanceStore a
       else setItem accepted (valueOf next) (appearanceStore a) |}.

(** The first render (line 59) and the effect that runs after it. *)
Definition mountAppearance (accepted : bool) (saved : option Settings) : Appearance :=
  let initial :=
    match saved with
    | Some savedSettings => Built (spread defaultAppearanceSettings savedSettings)
    | None => TheDefaults
    end in
  {| settings := initial; appearanceStore := setItem accepted (valueOf initial) saved |}.

(** Line 98.  [removeItem] throws where the store cannot be reached
    ([removed] is false): the handler ends there, before [setSettings]. *)
Definition resetSettings (removed accepted : bool) (a : Appearance) : Appearance :=
  if removed
  then setSettings TheDefaults accepted {| settings := settings a; appearanceStore := None |}
  else a.

(** The handlers of the component [AppearanceSettings] (line 813). *)
Module AppearanceSettings.

(** Line 818. *)
Definition handleThemeChange (theme : string) (accepted : bool)
    (a : Appearance) : Appearance :=
  if decide (theme = "light") then setSettings TheDefaults accepted a
  else if decide (theme = "dark") then setSettings TheDarkTheme accepted a
  else setSettings (Built (<["theme" := JsString "custom"]> (valueOf (settings a))))
         accepted a.

(** Line 828: [{ ...prev, theme: 'custom', [key]: value }]. *)
Definition handleSettingChange (key : string) (value : JsValue) (accepted : bool)
    (a : Appearance) : Appearance :=
  setSettings
    (Built (<[key := value]> (<["theme" := JsString "custom"]> (valueOf (settings a)))))
    accepted a.

End AppearanceSettings.

(** What happens to the appearance.  [accepted] tells whether the store
    takes the write that the event leads to, where it leads to one. *)
Inductive AppearanceEvent :=
| ThemeChange (theme : string) (accepted : bool)
| SettingChange (key : string) (value : JsValue) (accepted : bool)
| ResetSettings (removed accepted : bool)
| ReloadAppearance (accepted : bool).

Definition fireAppearance (e : AppearanceEvent) (a : Appearance) : Appearance :=
  match e with
  | ThemeChange theme accepted => AppearanceSettings.handleThemeChange theme accepted a
  | SettingChange key value accepted =>
      AppearanceSettings.handleSettingChange key value accepted a
  | ResetSettings removed accepted => resetSettings removed accepted a
  | ReloadAppearance accepted => mountAppearance accepted (appearanceStore a)
  end.

Definition runAppearance (events : list AppearanceEvent) (a : Appearance) : Appearance :=
  foldl (λ a e, fireAppearance e a) a events.

(** The store takes what a change of the theme or of a setting writes. *)
Definition changeStored (e : AppearanceEvent) : Prop :=
  match e with
  | ThemeChange _ accepted | SettingChange _ _ accepted => accepted = true
  | ResetSettings _ _ | ReloadAppearance _ => True
  end.

(** The store holds the settings, or nothing while the state holds the
    defaults. *)
Definition AppearanceStored (a : Appearance) : Prop :=
  appearanceStore a = Some (valueOf (settings a)) ∨
  (appearanceStore a = None ∧ settings a = TheDefaults).

(** *** The player settings of [PlayerProvider] (line 184) *)

(** [playerSettings], and what [localStorage] holds under [playerSettings]. *)
Record Customization := {
  playerSettings : Settings;
  playerStore : option Settings;
}.

Definition mountCustomization (saved : option Settings) : Customization :=
  {| playerSettings := loadSettings defaultPlayerSettings saved; playerStore := saved |}.

(** Line 359: the state is set, then the store is written.  A refused write
    throws out of the handler, with the state set. *)
Definition updatePlayerSettings (newSettings : Settings) (accepted : bool)
    (c : Customization) : Customization :=
  {| playerSettings := newSettings;
     playerStore := setItem accepted newSettings (playerStore c) |}.

(** The handlers of the component [PlayerCustomization] (line 920). *)
Module PlayerCustomization.

(** Line 923: [updatePlayerSettings({ ...playerSettings, [key]: value })]. *)
Definition handleSettingChange (key : string) (value : JsValue) (accepted : bool)
    (c : Customization) : Customization :=
  updatePlayerSettings (<[key := value]> (playerSettings c)) accepted c.

(** Line 927. *)
Definition resetToDefaultSettings (accepted : bool) (c : Customization) : Customization :=
  updatePlayerSettings defaultPlayerSettings accepted c.

End PlayerCustomization.

Inductive CustomizationEvent :=
| PlayerSettingChange (key : string) (value : JsValue) (accepted : bool)
| ResetPlayerSettings (accepted : bool)
| ReloadCustomization.

Definition fireCustomization (e : CustomizationEvent) (c : Customization) : Customization :=
  match e with
  | PlayerSettingChange key value accepted =>
      PlayerCustomization.handleSettingChange key value accepted c
  | ResetPlayerSettings accepted => PlayerCustomization.resetToDefaultSettings accepted c
  | ReloadCustomization => mountCustomization (playerStore c)
  end.

Definition runCustomization (events : list CustomizationEvent)
    (c : Customization) : Customization :=
  foldl (λ c e, fireCustomization e c) c events.

(** The store takes what a change or a reset of the player settings
    writes. *)
Definition playerChangeStored (e : CustomizationEvent) : Prop :=
  match e with
  | PlayerSettingChange _ _ accepted | ResetPlayerSettings accepted => accepted = true
  | ReloadCustomization => True
  end.

(** What the store holds loads to the settings. *)
Definition CustomizationStored (c : Customization) : Prop :=
  loadSettings defaultPlayerSettings (playerStore c) = playerSettings c.

(** ** Walking a queue *)

(** A track that carries its file. *)
Definition live (t : Track) : Prop := is_Some (file t).

(** The plain queue [q] is walked and the current song is that of index
    [i]: shuffle is off, and the track at [i] has the current song's id. *)
Definition Walking (q : list Track) (i : nat) (p : Player) : Prop :=
  isShuffleActive p = false ∧
  currentQueue p = q ∧
  ∃ c x, currentSong p = Some c ∧ q !! i = Some x ∧ id x = id c.

(** The queue [q] is played under shuffle: the current song is one of [q],
    and the shuffled queue was built around it. *)
Definition Shuffling (random : nat → Random01) (q : list Track) (p : Player) : Prop :=
  isShuffleActive p = true ∧
  currentQueue p = q ∧
  ∃ c calls, currentSong p = Some c ∧ c ∈ q ∧
             shuffledQueue p = buildShuffledQueue random calls q c.

(** ** After a reload *)

Definition isImport (e : Event) : Prop :=
  match e with
  | SaveImport _ _ _ _ => True
  | _ => False
  end.

(** Nothing can be played: the library is empty, no song is current, and
    no entry of the history, in the session or in the store, has a file. *)
Definition Silent (app : App) : Prop :=
  library app = [] ∧
  currentSong (player app) = None ∧
  isPlaying (player app) = false ∧
  Forall (λ t, file t = None) (recentlyPlayed (player app)) ∧
  Forall (λ t, file t = None) (stored app).

(** ** The source of the audio element *)

Definition sourceOf (c : AudioCommand) : option File :=
  match c with
  | SetSrc f => Some f
  | _ => None
  end.

(** The file that the audio element was given last. *)
Definition lastSource (trace : list AudioCommand) : option File :=
  last (omap sourceOf trace).

(** The audio element holds the file of the current song, and a session
    that plays has a current song. *)
Definition InTune (p : Player) : Prop :=
  lastSource (audio p) = currentSong p ≫= file ∧
  (isPlaying p = true → is_Some (currentSong p)).

(** ** The current song and the queues *)




(** ** Properties of the shuffle *)

(** [Math.floor(Math.random() * n)] is an index below [n]. *)
Lemma floorTimes_lt u n : 0 < n → floorTimes u n < n.
Proof.
  intros Hn. unfold floorTimes.
  apply Nat.Div0.div_lt_upper_bound. nia.
Qed.

Section ShuffleFacts.
Context {A : Type}.
Implicit Types (l : list A) (i j : nat).

Lemma swap_length i j l : length (swap i j l) = length l.
Proof.
  unfold swap. destruct (l !! i), (l !! j); try done.
  by rewrite !length_insert.
Qed.

(** Within bounds, [swap i j] exchanges what the indices [i] and [j] hold. *)
Lemma swap_lookup i j l k :
  i < length l → j < length l →
  swap i j l !! k =
    l !! (if decide (k = i) then j else if decide (k = j) then i else k).
Proof.
  intros Hi Hj. unfold swap.
  destruct (lookup_lt_is_Some_2 l i Hi) as [x Hx].
  destruct (lookup_lt_is_Some_2 l j Hj) as [y Hy].
  rewrite Hx, Hy.
  destruct (decide (k = j)) as [->|Hkj].
  - rewrite list_lookup_insert_eq by (rewrite length_insert; lia).
    destruct (decide (j = i)) as [->|]; congruence.
  - rewrite list_lookup_insert_ne by done.
    destruct (decide (k = i)) as [->|Hki].
    + by rewrite list_lookup_insert_eq.
    + by rewrite list_lookup_insert_ne.
Qed.

Lemma swap_Permutation i j l : swap i j l ≡ₚ l.
Proof.
  destruct (decide (i < length l ∧ j < length l)) as [[Hi Hj]|Hout].
  - apply Permutation_inj. split; [apply swap_length|].
    exists (λ k, if decide (k = i) then j else if decide (k = j) then i else k).
    split; [|intros k; by apply swap_lookup].
    intros a b. repeat case_decide; intros; simplify_eq; done.
  - unfold swap.
    destruct (l !! i) eqn:Ei, (l !! j) eqn:Ej; try done.
    apply lookup_lt_Some in Ei, Ej. tauto.
Qed.

Variable random : nat → Random01.

Lemma shuffleLoop_Permutation calls n l : shuffleLoop random calls n l ≡ₚ l.
Proof.
  revert calls l. induction n as [|n IH]; intros calls l; simpl; [done|].
  rewrite IH. apply swap_Permutation.
Qed.

Lemma shuffleArray_Permutation calls l : shuffleArray random calls l ≡ₚ l.
Proof. apply shuffleLoop_Permutation. Qed.

Lemma shuffleArray_length calls l : length (shuffleArray random calls l) = length l.
Proof. by rewrite shuffleArray_Permutation. Qed.
End ShuffleFacts.

(** Inside the loop both indices of the swap are below the length of the
    array: [currentIndex'] is, and [randomIndex] is at most [currentIndex']. *)
Lemma floorTimes_in_range {A} (random : nat → Random01) calls currentIndex' (l : list A) :
  currentIndex' < length l →
  floorTimes (random calls) (S currentIndex') < length l.
Proof. intros Hlt. pose proof (floorTimes_lt (random calls) (S currentIndex')). lia. Qed.

(** C6. [buildShuffledQueue] puts the anchor first and, behind it, a
    permutation of the queue without the tracks of the anchor's id, whatever
    the random source returns; when exactly one track of the queue has the
    anchor's id, the result is as long as the queue. *)
Theorem buildShuffledQueue_anchor_then_permutation
    (random : nat → Random01) (calls : nat) (q : list Track) (anchor : Track) :
  head (buildShuffledQueue random calls q anchor) = Some anchor ∧
  tail (buildShuffledQueue random calls q anchor)
    ≡ₚ filter (λ s, id s ≠ id anchor) q ∧
  (length (filter (λ s, id s = id anchor) q) = 1 →
   length (buildShuffledQueue random calls q anchor) = length q).
Proof.
  unfold buildShuffledQueue. simpl. split_and!; [done|apply shuffleArray_Permutation|].
  intros Honce. rewrite shuffleArray_length.
  pose proof (filter_app_complement (λ s, id s = id anchor) q) as Hsplit.
  apply Permutation_length in Hsplit. rewrite length_app in Hsplit.
  by rewrite <- Hsplit, Honce.
Qed.

(** At the queue [A, B, C] with anchor [B], the result has three tracks. *)
Lemma buildShuffledQueue_anchor_then_permutation_example :
  length (buildShuffledQueue sampleRandom 0 [songA; songB; songC] songB) = 3.
Proof.
  apply (buildShuffledQueue_anchor_then_permutation sampleRandom 0
           [songA; songB; songC] songB).
  reflexivity.
Defined.

(** ** Running the handlers *)

Ltac unfold_steps :=
  unfold play, next, previous, shuffle, ended, dispatch, handleEnded, playNext,
    playPrevious, toggleShuffle, playAt, playSong, togglePlayPause,
    setShuffledQueueAround, loadSource, alert, tell, setRecentlyPlayed,
    setCurrentSong, setIsPlaying, setCurrentQueue, setShuffledQueue,
    setIsShuffleActive, setRepeatMode, andThen, skip, throw, pending.

(** ** Facts about the history list *)

Section History.
Implicit Types (prev : list Track) (song : Track).

Lemma ids_without i prev :
  id <$> filter (λ s, id s ≠ i) prev = filter (λ j, j ≠ i) (id <$> prev).
Proof.
  induction prev as [|s prev IH]; [done|]. csimpl.
  rewrite !filter_cons. destruct (decide (id s ≠ i)); csimpl; by rewrite IH.
Qed.

Lemma id_not_in_without i prev : i ∉ id <$> filter (λ s, id s ≠ i) prev.
Proof. rewrite ids_without, list_elem_of_filter. tauto. Qed.

Lemma evict_gone songToPlay prev : id songToPlay ∉ id <$> evict songToPlay prev.
Proof. apply id_not_in_without. Qed.

Lemma evict_NoDup songToPlay prev :
  NoDup (id <$> prev) → NoDup (id <$> evict songToPlay prev).
Proof. unfold evict. rewrite ids_without. apply NoDup_filter. Qed.

Lemma evict_length songToPlay prev : length (evict songToPlay prev) ≤ length prev.
Proof. apply length_filter. Qed.

Lemma without_NoDup i prev :
  NoDup (id <$> prev) → NoDup (id <$> filter (λ s, id s ≠ i) prev).
Proof. rewrite ids_without. apply NoDup_filter. Qed.

Lemma without_absent i prev :
  i ∉ id <$> prev → filter (λ s, id s ≠ i) prev = prev.
Proof.
  induction prev as [|s prev IH]; [done|]. csimpl.
  rewrite not_elem_of_cons. intros [Hne Hrest].
  rewrite filter_cons_True by done. by rewrite IH.
Qed.

Lemma promote_length song prev : length (promote song prev) ≤ 50.
Proof. unfold promote. rewrite length_take. lia. Qed.

Lemma promote_first song prev : promote song prev !! 0 = Some song.
Proof. done. Qed.

Lemma promote_NoDup song prev :
  NoDup (id <$> prev) → NoDup (id <$> promote song prev).
Proof.
  intros Hprev. unfold promote. rewrite fmap_take.
  eapply sublist_NoDup; [|apply sublist_take]. csimpl.
  apply NoDup_cons. split; [apply id_not_in_without|by apply without_NoDup].
Qed.

Lemma promote_present_length song prev :
  id song ∈ id <$> prev → length (promote song prev) ≤ length prev.
Proof.
  intros (s & Hid & Hin)%list_elem_of_fmap. unfold promote.
  pose proof (length_filter_lt (λ s, id s ≠ id song) prev s Hin) as Hlt.
  assert (¬ id s ≠ id song) as Hnot by (intros Hne; by apply Hne).
  specialize (Hlt Hnot).
  rewrite length_take. cbn [length].
  pose proof (Nat.le_min_r 50 (S (length (filter (λ s, id s ≠ id song) prev)))).
  lia.
Qed.
End History.

(** ** Playing a stale track *)

(** A track is stale when it carries no file and no song of the library has
    its id. *)
Lemma resolve_stale (songs : list Track) (songToPlay : Track) :
  resolve songs songToPlay = None ↔
  file songToPlay = None ∧ (id songToPlay ∉ id <$> songs).
Proof.
  unfold resolve, find.
  destruct (file songToPlay) as [f|]; [by split; [|intros []]|].
  rewrite fmap_None, list_find_None, Forall_forall. split.
  - intros Hnone. split; [done|].
    intros (s & Hid & Hin)%list_elem_of_fmap. by apply (Hnone s).
  - intros [_ Hnone] s Hin Hid. apply Hnone. rewrite <- Hid.
    by apply list_elem_of_fmap_2.
Qed.

(** The stale branch of [playSong]: an alert, the eviction, and [return]. *)
Lemma play_stale_fields
    (random : nat → Random01) (songs : list Track) (st : Player)
    (staleTrack : Track) (queue : option (list Track)) :
  resolve songs staleTrack = None →
  let st' := play random songs staleTrack queue st in
  recentlyPlayed st' = evict staleTrack (recentlyPlayed st) ∧
  audio st' = audio st ∧
  currentSong st' = currentSong st ∧
  isPlaying st' = isPlaying st ∧
  alerts st' = S (alerts st).
Proof.
  intros Hstale. unfold_steps. rewrite Hstale.
  destruct queue as [queue|], (isShuffleActive st); simpl; done.
Qed.

(** C3. A play of a stale track (no file of its own, no library song of its
    id: [resolve_stale]) leaves no entry of that id in the history, sends the
    audio element nothing (no source, no play), and keeps the current
    song. *)
Theorem play_stale_evicts_and_aborts
    (random : nat → Random01) (songs : list Track) (st : Player)
    (staleTrack : Track) (queue : option (list Track)) :
  resolve songs staleTrack = None →
  let st' := play random songs staleTrack queue st in
  (id staleTrack ∉ id <$> recentlyPlayed st') ∧
  recentlyPlayed st' = evict staleTrack (recentlyPlayed st) ∧
  audio st' = audio st ∧
  currentSong st' = currentSong st.
Proof.
  intros Hstale.
  destruct (play_stale_fields random songs st staleTrack queue Hstale)
    as (Hhistory & Haudio & Hcurrent & _).
  simpl. rewrite Hhistory. split_and!; [apply evict_gone|done..].
Qed.

(** The first click of a session on the entry its history was loaded with. *)
Lemma play_stale_evicts_and_aborts_example :
  let st' := play sampleRandom [songA] staleS (Some [staleS]) (initialPlayer [staleS]) in
  (id staleS ∉ id <$> recentlyPlayed st') ∧
  recentlyPlayed st' = evict staleS [staleS] ∧
  audio st' = [] ∧
  currentSong st' = None.
Proof.
  apply (play_stale_evicts_and_aborts sampleRandom [songA] (initialPlayer [staleS])
           staleS (Some [staleS])).
  reflexivity.
Defined.

(** C9. The abort comes after the queue was replaced: once a play of a
    stale track with a queue has returned, the session's queue is that queue
    and, under shuffle, the shuffled queue was rebuilt around the stale
    track; the current song is the one from before. *)
Theorem play_stale_keeps_queue_mutations
    (random : nat → Random01) (songs : list Track) (st : Player)
    (staleTrack : Track) (originatingQueue : list Track) :
  resolve songs staleTrack = None →
  let st' := play random songs staleTrack (Some originatingQueue) st in
  currentQueue st' = originatingQueue ∧
  (isShuffleActive st = true →
   shuffledQueue st' =
     buildShuffledQueue random (randomCalls st) originatingQueue staleTrack ∧
   head (shuffledQueue st') = Some staleTrack) ∧
  (isShuffleActive st = false → shuffledQueue st' = shuffledQueue st) ∧
  currentSong st' = currentSong st ∧
  isShuffleActive st' = isShuffleActive st.
Proof.
  intros Hstale. unfold_steps. rewrite Hstale.
  destruct (isShuffleActive st) eqn:Hshuffle; simpl; split_and!; done.
Qed.

(** Under shuffle, with [songA] current, the stale [staleS] is clicked in
    the list [A, S]. *)
Lemma play_stale_keeps_queue_mutations_example :
  let st := with_isShuffleActive true (playingA [songA] RepeatOff) in
  let st' := play sampleRandom [songA] staleS (Some [songA; staleS]) st in
  currentQueue st' = [songA; staleS] ∧
  (isShuffleActive st = true →
   shuffledQueue st' = buildShuffledQueue sampleRandom 0 [songA; staleS] staleS ∧
   head (shuffledQueue st') = Some staleS) ∧
  (isShuffleActive st = false → shuffledQueue st' = shuffledQueue st) ∧
  currentSong st' = Some songA ∧
  isShuffleActive st' = true.
Proof.
  apply (play_stale_keeps_queue_mutations sampleRandom [songA]
           (with_isShuffleActive true (playingA [songA] RepeatOff))
           staleS [songA; staleS]).
  reflexivity.
Defined.

(** ** Array helpers *)

Section ArrayFacts.
Context {A : Type} (P : A → Prop) `{!∀ x, Decision (P x)}.
Implicit Types (l : list A) (i : nat).

Lemma findIndex_absent l : (∀ x, x ∈ l → ¬ P x) → findIndex P l = (-1)%Z.
Proof.
  intros Hnone. unfold findIndex.
  destruct (list_find P l) as [[i x]|] eqn:Hfind; [|done].
  apply list_find_Some in Hfind as (Hi & HP & _).
  destruct (Hnone x); [by eapply list_elem_of_lookup_2|done].
Qed.

Lemma findIndex_found l i :
  findIndex P l = Z.of_nat i →
  ∃ x, l !! i = Some x ∧ P x ∧ ∀ j y, l !! j = Some y → j < i → ¬ P y.
Proof.
  unfold findIndex.
  destruct (list_find P l) as [[k x]|] eqn:Hfind; [|lia].
  intros ->%(inj Z.of_nat). exists x. by apply list_find_Some in Hfind.
Qed.

Lemma at_index_of_nat l i : at_index l (Z.of_nat i) = l !! i.
Proof. unfold at_index. rewrite decide_True by lia. by rewrite Nat2Z.id. Qed.
End ArrayFacts.

(** ** Next and previous, by the index of the current song *)

Section Navigation.
Variable random : nat → Random01.
Variable songs : list Track.
Implicit Types (st : Player) (current : Track) (i : nat).

(** [playNext] once the current song is found at index [i]. *)
Lemma playNext_found st current i :
  currentSong st = Some current →
  findIndex (λ s, id s = id current) (activeQueue st) = Z.of_nat i →
  playNext random songs st =
    if decide (S i < length (activeQueue st))
    then playAt random songs st (Z.of_nat (S i))
    else match repeatMode st with
         | RepeatAll => playAt random songs st 0
         | _ => setIsPlaying false
         end.
Proof.
  intros Hcur Hidx. unfold playNext. rewrite Hcur, Hidx.
  destruct (findIndex_found _ _ _ Hidx) as (x & Hx%lookup_lt_Some & _).
  rewrite decide_False by lia. rewrite decide_False by lia.
  destruct (decide (S i < length (activeQueue st))).
  - rewrite decide_False by lia. f_equal. lia.
  - by rewrite decide_True by lia.
Qed.

(** [playPrevious] once the current song is found at index [i]. *)
Lemma playPrevious_found st current i :
  currentSong st = Some current →
  findIndex (λ s, id s = id current) (activeQueue st) = Z.of_nat i →
  playPrevious random songs st =
    playAt random songs st
      ((Z.of_nat i - 1 + Z.of_nat (length (activeQueue st)))
         `rem` Z.of_nat (length (activeQueue st)))%Z.
Proof.
  intros Hcur Hidx. unfold playPrevious. rewrite Hcur, Hidx.
  destruct (findIndex_found _ _ _ Hidx) as (x & Hx%lookup_lt_Some & _).
  rewrite decide_False by lia. by rewrite decide_False by lia.
Qed.

(** [findIndex] returns [-1]: [playNext] returns at line 292. *)
Lemma playNext_absent st current :
  currentSong st = Some current →
  (id current ∉ id <$> activeQueue st) →
  playNext random songs st = skip.
Proof.
  intros Hcur Habsent. unfold playNext. rewrite Hcur.
  case_decide; [done|].
  rewrite findIndex_absent; [done|].
  intros s Hs Hid. apply Habsent. rewrite <- Hid. by apply list_elem_of_fmap_2.
Qed.
End Navigation.

(** ** The current song is not in the active queue *)

(** The test of line 292.  With a current song that no track of the active
    queue shares its id with, [playNext] returns at once: the player, and
    with it [isPlaying] and the current song, is what it was.  (No session
    of the application gets there: see the end of the file.) *)
Lemma next_absent_from_queue_is_noop
    (random : nat → Random01) (songs : list Track) (st : Player) (current : Track) :
  currentSong st = Some current →
  (id current ∉ id <$> activeQueue st) →
  next random songs st = st.
Proof.
  intros Hcur Habsent. unfold next, dispatch.
  by rewrite (playNext_absent random songs st current).
Qed.

(** [songA] plays while the queue holds [songB] only. *)
Lemma next_absent_from_queue_is_noop_example :
  next sampleRandom [songA; songB] (playingA [songB] RepeatOff) = playingA [songB] RepeatOff.
Proof.
  apply (next_absent_from_queue_is_noop sampleRandom [songA; songB]
           (playingA [songB] RepeatOff) songA).
  - reflexivity.
  - by intros [=]%list_elem_of_singleton.
Defined.

(** In such a state, made by hand: [songA] plays, the queue holds [songB]
    only, and after [playNext] the session is still playing. *)
Lemma next_absent_from_queue_still_playing :
  let st := playingA [songB] RepeatOff in
  currentSong st = Some songA ∧
  (id songA ∉ id <$> activeQueue st) ∧
  isPlaying st = true ∧
  ¬ (isPlaying (next sampleRandom [songA; songB] st) = false).
Proof.
  split_and!; [done| |done|done].
  by intros [=]%list_elem_of_singleton.
Qed.

(** ** What a play leaves behind *)

Section PlayFacts.
Variable random : nat → Random01.
Variable songs : list Track.
Implicit Types (st : Player) (songToPlay song : Track) (queue : option (list Track)).

(** The queue block of [playSong], whichever way the call ends. *)
Lemma play_queues st songToPlay queue :
  let st' := play random songs songToPlay queue st in
  currentQueue st' = default (currentQueue st) queue ∧
  shuffledQueue st' =
    match queue with
    | Some q =>
        if isShuffleActive st
        then buildShuffledQueue random (randomCalls st) q songToPlay
        else shuffledQueue st
    | None => shuffledQueue st
    end ∧
  isShuffleActive st' = isShuffleActive st ∧
  repeatMode st' = repeatMode st.
Proof.
  unfold_steps.
  destruct (resolve songs songToPlay) as [song|];
    [destruct (isCurrent st song), (currentSong st), (isPlaying st), (file song)|];
    destruct queue as [q|], (isShuffleActive st) eqn:Hshuffle; simpl; done.
Qed.

(** The song that is asked for is the current one: play and pause toggle. *)
Lemma play_current st songToPlay queue song :
  resolve songs songToPlay = Some song →
  isCurrent st song = true →
  let st' := play random songs songToPlay queue st in
  currentSong st' = currentSong st ∧
  isPlaying st' = negb (isPlaying st) ∧
  audio st' = audio st ++ [if isPlaying st then Pause else Play] ∧
  recentlyPlayed st' = promote song (recentlyPlayed st).
Proof.
  intros Hsong Hsame. unfold_steps. rewrite Hsong, Hsame.
  unfold isCurrent in Hsame.
  destruct (currentSong st) as [current|] eqn:Hcur; [|done].
  destruct queue as [q|], (isShuffleActive st), (isPlaying st) eqn:Hplaying;
    simpl; rewrite ?Hcur, ?Hplaying; done.
Qed.

(** Another song, with its file: it becomes the current song and plays. *)
Lemma play_other st songToPlay queue song f :
  resolve songs songToPlay = Some song →
  file song = Some f →
  isCurrent st song = false →
  let st' := play random songs songToPlay queue st in
  currentSong st' = Some song ∧
  isPlaying st' = true ∧
  audio st' = audio st ++ [SetSrc f; Play] ∧
  recentlyPlayed st' = promote song (recentlyPlayed st).
Proof.
  intros Hsong Hfile Hother. unfold_steps. rewrite Hsong, Hother, Hfile.
  destruct queue as [q|], (isShuffleActive st); simpl; rewrite <- ?(assoc_L (++)); done.
Qed.

(** Either way the song is promoted in the history. *)
Lemma play_history st songToPlay queue song :
  resolve songs songToPlay = Some song →
  is_Some (file song) →
  recentlyPlayed (play random songs songToPlay queue st) = promote song (recentlyPlayed st).
Proof.
  intros Hsong [f Hfile].
  destruct (isCurrent st song) eqn:Hsame.
  - by apply play_current.
  - by eapply play_other.
Qed.

(** The song a track resolves to has the track's id. *)
Lemma resolve_id songToPlay song :
  resolve songs songToPlay = Some song → id song = id songToPlay.
Proof.
  unfold resolve, find. destruct (file songToPlay); [by intros [= ->]|].
  destruct (list_find _ songs) as [[i s]|] eqn:Hfind; [|done].
  intros [= <-]. by apply list_find_Some in Hfind as (_ & ? & _).
Qed.
End PlayFacts.

(** ** The history after a play *)

(** In a history of distinct ids and at most 50 entries, the promotion
    moves the entry of the song's id to the front and shifts nothing else. *)
Lemma promote_moves_to_front song l1 x l2 :
  id x = id song →
  (id song ∉ id <$> l1) → (id song ∉ id <$> l2) →
  length (l1 ++ x :: l2) ≤ 50 →
  promote song (l1 ++ x :: l2) = song :: l1 ++ l2.
Proof.
  intros Hx Hl1 Hl2 Hlen. unfold promote.
  rewrite filter_app, filter_cons_False by (intros Hne; by apply Hne).
  rewrite !without_absent by done.
  apply take_ge. rewrite length_app in Hlen. simpl in *. rewrite length_app. lia.
Qed.

(** After a play of a track that resolves to a song with its file, the
    history has at most 50 entries, no two of one id if it had none before,
    and that song first; when an entry of the song's id was there already,
    the history has not grown. *)
Lemma play_promotes
    (random : nat → Random01) (songs : list Track) (st : Player)
    (songToPlay : Track) (queue : option (list Track)) (song : Track) :
  resolve songs songToPlay = Some song →
  is_Some (file song) →
  NoDup (id <$> recentlyPlayed st) →
  let st' := play random songs songToPlay queue st in
  length (recentlyPlayed st') ≤ 50 ∧
  NoDup (id <$> recentlyPlayed st') ∧
  recentlyPlayed st' !! 0 = Some song ∧
  ((id song ∈ id <$> recentlyPlayed st) →
   length (recentlyPlayed st') ≤ length (recentlyPlayed st)).
Proof.
  intros Hsong Hfile Hdistinct. simpl.
  rewrite (play_history random songs st songToPlay queue song) by done.
  split_and!.
  - apply promote_length.
  - by apply promote_NoDup.
  - apply promote_first.
  - apply promote_present_length.
Qed.

(** C5 as stated fails for the entries that an earlier session left in the
    history: a play of one of them removes it, so it is not at index 0. *)
Lemma play_stale_not_at_front :
  let st := initialPlayer [staleS] in
  let st' := play sampleRandom [songA] staleS (Some [staleS]) st in
  (id staleS ∈ id <$> recentlyPlayed st) ∧
  recentlyPlayed st' = [] ∧
  ¬ (recentlyPlayed st' !! 0 = Some staleS).
Proof. split_and!; [by apply list_elem_of_singleton|done|done]. Qed.

(** ** Playing the current song again *)

(** With [X] current and playing, a play of a live track of [X]'s id
    pauses: [isPlaying] turns false, the audio element receives [pause()]
    and nothing else, [X] stays current, and in a history of distinct ids
    the entry of that id moves to the front while every other entry keeps
    its place in the order. *)
Lemma play_live_current_pauses
    (random : nat → Random01) (songs : list Track) (st : Player)
    (X songToPlay : Track) (queue : option (list Track)) (song : Track) :
  currentSong st = Some X →
  isPlaying st = true →
  id songToPlay = id X →
  resolve songs songToPlay = Some song →
  let st' := play random songs songToPlay queue st in
  isPlaying st' = false ∧
  audio st' = audio st ++ [Pause] ∧
  currentSong st' = Some X ∧
  (∀ l1 x l2,
     recentlyPlayed st = l1 ++ x :: l2 →
     id x = id X → (id X ∉ id <$> l1) → (id X ∉ id <$> l2) →
     length (recentlyPlayed st) ≤ 50 →
     recentlyPlayed st' = song :: l1 ++ l2).
Proof.
  intros Hcur Hplaying Hid Hsong.
  pose proof (resolve_id songs _ _ Hsong) as Hsame.
  assert (isCurrent st song = true) as Hcurrent.
  { unfold isCurrent. rewrite Hcur. apply bool_decide_eq_true. congruence. }
  destruct (play_current random songs st songToPlay queue song Hsong Hcurrent)
    as (Hc & Hp & Ha & Hh).
  simpl. rewrite Hc, Hp, Ha, Hh, Hplaying. split_and!; try done.
  intros l1 x l2 -> Hx Hl1 Hl2 Hlen.
  apply promote_moves_to_front; congruence.
Qed.

(** ** Next at the end of the queue *)

Section NextPrevious.
Variable random : nat → Random01.
Variable songs : list Track.
Implicit Types (st : Player) (current : Track) (i : nat).

(** [playSong(activeQueue[i], currentQueue)] is a play of that track with
    the plain queue. *)
Lemma playAt_play st i x :
  activeQueue st !! i = Some x →
  pending (playAt random songs st (Z.of_nat i) st)
    = play random songs x (Some (currentQueue st)) st.
Proof. intros Hx. unfold playAt. by rewrite at_index_of_nat, Hx. Qed.

(** At the last index: stop, unless the repeat mode is all. *)
Lemma next_stops st current i :
  currentSong st = Some current →
  findIndex (λ s, id s = id current) (activeQueue st) = Z.of_nat i →
  S i = length (activeQueue st) →
  repeatMode st ≠ RepeatAll →
  next random songs st = with_isPlaying false st.
Proof.
  intros Hcur Hidx Hlast Hmode. unfold next, dispatch.
  rewrite (playNext_found random songs st current i) by done.
  rewrite decide_False by lia. by destruct (repeatMode st).
Qed.

(** At the last index under repeat all: the first track is played. *)
Lemma next_wraps st current i first :
  currentSong st = Some current →
  findIndex (λ s, id s = id current) (activeQueue st) = Z.of_nat i →
  S i = length (activeQueue st) →
  repeatMode st = RepeatAll →
  activeQueue st !! 0 = Some first →
  next random songs st = play random songs first (Some (currentQueue st)) st.
Proof.
  intros Hcur Hidx Hlast Hmode Hfirst. unfold next, dispatch.
  rewrite (playNext_found random songs st current i) by done.
  rewrite decide_False by lia. rewrite Hmode.
  by apply (playAt_play st 0).
Qed.

(** Before the last index: the following track is played. *)
Lemma next_advances st current i x :
  currentSong st = Some current →
  findIndex (λ s, id s = id current) (activeQueue st) = Z.of_nat i →
  activeQueue st !! S i = Some x →
  next random songs st = play random songs x (Some (currentQueue st)) st.
Proof.
  intros Hcur Hidx Hx. unfold next, dispatch.
  rewrite (playNext_found random songs st current i) by done.
  rewrite decide_True by (by eapply lookup_lt_Some).
  by apply playAt_play.
Qed.

(** Previous plays the track at [(currentIndex - 1 + length) % length]. *)
Lemma previous_selects st current i x :
  currentSong st = Some current →
  findIndex (λ s, id s = id current) (activeQueue st) = Z.of_nat i →
  at_index (activeQueue st)
    ((Z.of_nat i - 1 + Z.of_nat (length (activeQueue st)))
       `rem` Z.of_nat (length (activeQueue st)))%Z = Some x →
  previous random songs st = play random songs x (Some (currentQueue st)) st.
Proof.
  intros Hcur Hidx Hx. unfold previous, dispatch.
  rewrite (playPrevious_found random songs st current i) by done.
  unfold playAt. by rewrite Hx.
Qed.
End NextPrevious.

(** The listener of [ended]: under repeat one the audio element is rewound
    and started again, under the other modes [playNext] runs. *)
Lemma ended_cases (random : nat → Random01) (songs : list Track) (st : Player) :
  ended random songs st =
    match repeatMode st with
    | RepeatOne => with_audio (audio st ++ [SetCurrentTime 0; Play]) st
    | _ => next random songs st
    end.
Proof.
  unfold ended, next, dispatch, handleEnded.
  destruct (repeatMode st); try done.
  unfold_steps. simpl. by rewrite <- (assoc_L (++)).
Qed.

(** The sample session, step by step. *)
Lemma sample_session_states :
  run sampleRandom earlierSession (startApp []) = startApp [staleS] ∧
  library sampleApp4 = [songA] ∧
  session2 = {|
    currentSong := Some songA; isPlaying := true; progress := 0%Q; duration := 0%Q;
    isFullPlayerVisible := false; currentQueue := [songA];
    shuffledQueue := [songA]; isShuffleActive := true;
    repeatMode := RepeatOff; recentlyPlayed := [songA; staleS];
    audio := [SetSrc (Blob 1); Play]; alerts := 0; randomCalls := 0 |} ∧
  session3 = {|
    currentSong := Some songA; isPlaying := true; progress := 0%Q; duration := 0%Q;
    isFullPlayerVisible := false; currentQueue := [songA; staleS];
    shuffledQueue := [staleS; songA]; isShuffleActive := true;
    repeatMode := RepeatOff; recentlyPlayed := [songA];
    audio := [SetSrc (Blob 1); Play]; alerts := 1; randomCalls := 1 |} ∧
  session3 = play sampleRandom [songA] staleS (Some [songA; staleS]) session2 ∧
  session4 = with_repeatMode RepeatAll session3.
Proof. split_and!; vm_compute; reflexivity. Qed.

(** C2 as stated fails under repeat all, in two ways.  In the sample
    session [songA] is the last of the active queue [S, A], whose first
    track is stale: after [playNext], [songA] is still the current song.
    And when [songA] plays from the queue [A], its first and last track,
    [playNext] pauses it. *)
Lemma next_wrap_not_always_playing :
  (currentSong session4 = Some songA ∧
   activeQueue session4 = [staleS; songA] ∧
   findIndex (λ s, id s = id songA) (activeQueue session4) = 1%Z ∧
   repeatMode session4 = RepeatAll ∧
   let st' := next sampleRandom [songA] session4 in
   currentSong st' = Some songA ∧
   ¬ (currentSong st' = Some staleS ∧ isPlaying st' = true)) ∧
  (let st := playingA [songA] RepeatAll in
   currentSong st = Some songA ∧
   activeQueue st = [songA] ∧
   findIndex (λ s, id s = id songA) (activeQueue st) = 0%Z ∧
   isPlaying st = true ∧
   let st' := next sampleRandom [songA] st in
   ¬ (currentSong st' = Some songA ∧ isPlaying st' = true)).
Proof.
  split.
  - split_and!; try (vm_compute; reflexivity).
    cbv zeta. split; [vm_compute; reflexivity|].
    intros [Hcur _]. vm_compute in Hcur. discriminate.
  - cbv zeta. split_and!; try reflexivity.
    intros [_ Hplaying]. vm_compute in Hplaying. discriminate.
Qed.

(** ** Previous at the head of the queue *)

(** [(0 - 1 + length) % length] is the last index. *)
Lemma at_index_before_first {A} (l : list A) :
  l ≠ [] →
  at_index l ((0 - 1 + Z.of_nat (length l)) `rem` Z.of_nat (length l))%Z = last l.
Proof.
  intros Hne. assert (0 < length l) by (destruct l; [done|simpl; lia]).
  rewrite Z.rem_small by lia.
  replace (0 - 1 + Z.of_nat (length l))%Z with (Z.of_nat (pred (length l))) by lia.
  by rewrite at_index_of_nat, last_lookup.
Qed.

(** C8. With the current song at index 0 of the active queue, [playPrevious]
    plays the last track of the active queue, with the plain queue as the
    originating queue; the repeat mode has no part in it. *)
Theorem previous_at_first_index
    (random : nat → Random01) (songs : list Track) (st : Player)
    (current lastTrack : Track) :
  currentSong st = Some current →
  findIndex (λ s, id s = id current) (activeQueue st) = 0%Z →
  last (activeQueue st) = Some lastTrack →
  previous random songs st
    = play random songs lastTrack (Some (currentQueue st)) st ∧
  ∀ mode,
    previous random songs (with_repeatMode mode st)
      = play random songs lastTrack (Some (currentQueue st)) (with_repeatMode mode st).
Proof.
  intros Hcur Hidx Hlast.
  assert (at_index (activeQueue st)
            ((Z.of_nat 0 - 1 + Z.of_nat (length (activeQueue st)))
               `rem` Z.of_nat (length (activeQueue st)))%Z = Some lastTrack) as Hat.
  { rewrite <- Hlast. apply at_index_before_first.
    intros Hnil. by rewrite Hnil in Hlast. }
  split; [|intros mode].
  - by apply (previous_selects random songs st current 0).
  - by apply (previous_selects random songs (with_repeatMode mode st) current 0).
Qed.

(** [songA] plays as the first of the queue [A, B, C]: previous goes to
    [songC], under each of the three repeat modes. *)
Lemma previous_at_first_index_example :
  Forall
    (λ mode,
       currentSong (previous sampleRandom [songA; songB; songC]
                      (with_repeatMode mode (playingA [songA; songB; songC] RepeatOff)))
         = Some songC)
    [RepeatOff; RepeatAll; RepeatOne].
Proof.
  repeat apply Forall_cons_2; [..|apply Forall_nil_2].
  all: rewrite (proj2 (previous_at_first_index sampleRandom [songA; songB; songC]
                         (playingA [songA; songB; songC] RepeatOff) songA songC
                         eq_refl eq_refl eq_refl));
    reflexivity.
Defined.

(** ** Next and previous under shuffle *)

(** The shuffle of a play draws its numbers after those drawn before. *)
Lemma play_randomCalls
    (random : nat → Random01) (songs : list Track) (st : Player)
    (songToPlay : Track) (q : list Track) :
  isShuffleActive st = true →
  randomCalls (play random songs songToPlay (Some q) st)
    = randomCalls st + length (filter (λ s, id s ≠ id songToPlay) q).
Proof.
  intros Hshuffle. unfold_steps. rewrite Hshuffle.
  destruct (resolve songs songToPlay) as [song|];
    [destruct (isCurrent st song), (currentSong st), (isPlaying st), (file song)|];
    simpl; done.
Qed.

(** ** The head of the shuffled queue and the current song *)

(** C1 fails in the sample session.  With shuffle on and [songA] current
    the shuffled queue starts with [songA]; the click on the stale entry
    [staleS] of the history rebuilds the shuffled queue around [staleS]
    before the play aborts, so it then starts with a track that is not the
    current song. *)
Theorem stale_click_breaks_shuffle_anchor :
  session2 = player (run sampleRandom (earlierSession ++ sampleStart) (startApp [])) ∧
  Anchored session2 ∧
  recentlyPlayed session2 !! 1 = Some staleS ∧
  session3 = player (fire sampleRandom (ClickRecent 1) sampleApp2) ∧
  isShuffleActive session3 = true ∧
  currentSong session3 = Some songA ∧
  shuffledQueue session3 = [staleS; songA] ∧
  ¬ Anchored session3.
Proof.
  split_and!; try (vm_compute; reflexivity).
  - intros _ c [= <-]. by exists songA.
  - intros Hanchored.
    destruct (Hanchored eq_refl songA eq_refl) as (h & [= <-] & [=]).
Qed.

(** ** Every session is well formed *)

Section Invariant.
Variable random : nat → Random01.
Implicit Types (songs oldSongs : list Track) (p r : Player) (t song : Track).

Lemma known_mono songs new t : known songs t → known (songs ++ new) t.
Proof. unfold known. intros Hk Hf. apply elem_of_app. left. auto. Qed.

Lemma resolve_cases oldSongs t song :
  resolve oldSongs t = Some song →
  (song = t ∧ is_Some (file t)) ∨ (file t = None ∧ song ∈ oldSongs ∧ id song = id t).
Proof.
  unfold resolve, find. destruct (file t) as [f|] eqn:Hfile.
  - intros [= <-]. left. eauto.
  - destruct (list_find _ oldSongs) as [[i s]|] eqn:Hfind; [|done].
    intros [= <-]. right. apply list_find_Some in Hfind as (Hi & Hid & _).
    split_and!; [done| |done]. by eapply list_elem_of_lookup_2.
Qed.

Lemma resolve_member songs oldSongs t song :
  oldSongs ⊆ songs → known songs t →
  resolve oldSongs t = Some song → song ∈ songs.
Proof.
  intros Hsub Hknown [[-> Hfile]|(_ & Hin & _)]%resolve_cases; auto.
Qed.

Lemma known_member songs song : song ∈ songs → known songs song.
Proof. by intros ? _. Qed.

Lemma evict_Forall (P : Track → Prop) t prev :
  Forall P prev → Forall P (evict t prev).
Proof.
  rewrite !Forall_forall. intros Hall x Hx. apply Hall.
  unfold evict in Hx. by apply list_elem_of_filter in Hx as [_ ?].
Qed.

Lemma promote_Forall (P : Track → Prop) song prev :
  P song → Forall P prev → Forall P (promote song prev).
Proof.
  intros Hsong Hprev. unfold promote. apply Forall_take, Forall_cons.
  split; [done|]. by apply (evict_Forall P song).
Qed.

Lemma buildShuffledQueue_Forall (P : Track → Prop) calls q anchor :
  P anchor → Forall P q → Forall P (buildShuffledQueue random calls q anchor).
Proof.
  intros Hanchor Hq. unfold buildShuffledQueue. apply Forall_cons. split; [done|].
  rewrite shuffleArray_Permutation. by apply (evict_Forall P anchor).
Qed.

(** The states a call of [playSong] can leave, read off its branches: the
    render [r] picks the branch, the updates land on [p]. *)
Lemma playSong_outcome oldSongs r t queue p :
  let p' := pending (playSong random oldSongs r t queue p) in
  (currentSong p' = currentSong p ∨
   ∃ song, resolve oldSongs t = Some song ∧ currentSong p' = Some song) ∧
  currentQueue p' = default (currentQueue p) queue ∧
  (shuffledQueue p' = shuffledQueue p ∨
   ∃ q, queue = Some q ∧
        shuffledQueue p' = buildShuffledQueue random (randomCalls p) q t) ∧
  (recentlyPlayed p' = recentlyPlayed p ∨
   recentlyPlayed p' = evict t (recentlyPlayed p) ∨
   ∃ song, resolve oldSongs t = Some song ∧
           recentlyPlayed p' = promote song (recentlyPlayed p)).
Proof.
  unfold_steps.
  destruct (resolve oldSongs t) as [song|];
    [destruct (isCurrent r song), (currentSong r), (isPlaying r), (file song)|];
    destruct queue as [q|], (isShuffleActive r); simpl;
    split_and!; eauto 6.
Qed.

Lemma playSong_WellFormed songs oldSongs r t queue p :
  oldSongs ⊆ songs → known songs t →
  (∀ q, queue = Some q → Forall (known songs) q) →
  WellFormed songs p →
  WellFormed songs (pending (playSong random oldSongs r t queue p)).
Proof.
  intros Hsub Ht Hq [Hlib Hcur Hqueue Hshuffled Hrecent].
  destruct (playSong_outcome oldSongs r t queue p)
    as (Hc & Hcq & Hsq & Hrp).
  split; [done|..].
  - intros c Hc'. destruct Hc as [Hsame|(song & Hsong & Hnew)].
    + apply Hcur. congruence.
    + rewrite Hnew in Hc'. injection Hc' as <-. by eapply resolve_member.
  - rewrite Hcq. destruct queue as [q|]; simpl; auto.
  - destruct Hsq as [->|(q & -> & ->)]; [done|].
    apply buildShuffledQueue_Forall; auto.
  - destruct Hrp as [->|[->|(song & Hsong & ->)]]; [done|by apply evict_Forall|].
    apply promote_Forall; [|done].
    apply known_member. by eapply resolve_member.
Qed.

Lemma playAt_WellFormed songs oldSongs r index p :
  oldSongs ⊆ songs → WellFormed songs r → WellFormed songs p →
  WellFormed songs (pending (playAt random oldSongs r index p)).
Proof.
  intros Hsub Hr Hp. unfold playAt.
  destruct (at_index (activeQueue r) index) as [x|] eqn:Hx; [|done].
  apply playSong_WellFormed; [done| |by intros q [= <-]; apply (wf_queue _ _ Hr)|done].
  unfold at_index in Hx. case_decide; [|done].
  apply list_elem_of_lookup_2 in Hx. destruct Hr as [_ _ Hq Hs _].
  unfold activeQueue in Hx.
  destruct (isShuffleActive r);
    [by apply (proj1 (Forall_forall _ _) Hs)|by apply (proj1 (Forall_forall _ _) Hq)].
Qed.

Lemma with_isPlaying_WellFormed songs b p :
  WellFormed songs p → WellFormed songs (with_isPlaying b p).
Proof. by intros []. Qed.

Lemma with_repeatMode_WellFormed songs m p :
  WellFormed songs p → WellFormed songs (with_repeatMode m p).
Proof. by intros []. Qed.

Lemma playNext_WellFormed songs oldSongs r p :
  oldSongs ⊆ songs → WellFormed songs r → WellFormed songs p →
  WellFormed songs (pending (playNext random oldSongs r p)).
Proof.
  intros Hsub Hr Hp. unfold playNext.
  destruct (currentSong r); [|done].
  repeat case_decide; try done; try by apply playAt_WellFormed.
  destruct (repeatMode r); try by apply playAt_WellFormed.
  all: by apply with_isPlaying_WellFormed.
Qed.

Lemma playPrevious_WellFormed songs oldSongs r p :
  oldSongs ⊆ songs → WellFormed songs r → WellFormed songs p →
  WellFormed songs (pending (playPrevious random oldSongs r p)).
Proof.
  intros Hsub Hr Hp. unfold playPrevious.
  destruct (currentSong r); [|done].
  repeat case_decide; try done; by apply playAt_WellFormed.
Qed.

Lemma toggleShuffle_WellFormed songs p :
  WellFormed songs p → WellFormed songs (shuffle random p).
Proof.
  intros [Hlib Hcur Hqueue Hshuffled Hrecent]. unfold_steps.
  destruct (isShuffleActive p), (currentSong p) as [c|] eqn:Hc; simpl;
    split; simpl; try done; try (by apply Forall_nil);
    try (intros c' Hc'; apply Hcur; congruence).
  apply (buildShuffledQueue_Forall (known songs)); [|done].
  apply known_member. by apply Hcur.
Qed.
End Invariant.

(** ** The history through every event *)

(** A property of histories that eviction, promotion and storing keep is
    kept by every event. *)
Section HistoryInvariant.
Variable random : nat → Random01.
Variable Inv : list Track → Prop.
Hypothesis Inv_evict : ∀ t history, Inv history → Inv (evict t history).
Hypothesis Inv_promote : ∀ song history, Inv history → Inv (promote song history).
Hypothesis Inv_storable : ∀ history, Inv history → Inv (storable <$> history).
Implicit Types (songs : list Track) (p r : Player).

Lemma playSong_history songs r t queue p :
  Inv (recentlyPlayed p) →
  Inv (recentlyPlayed (pending (playSong random songs r t queue p))).
Proof.
  intros Hinv.
  destruct (playSong_outcome random songs r t queue p)
    as (_ & _ & _ & [->|[->|(song & _ & ->)]]); auto.
Qed.

Lemma playAt_history songs r index p :
  Inv (recentlyPlayed p) →
  Inv (recentlyPlayed (pending (playAt random songs r index p))).
Proof.
  intros Hinv. unfold playAt.
  destruct (at_index (activeQueue r) index); [|done].
  by apply playSong_history.
Qed.

Lemma playNext_history songs r p :
  Inv (recentlyPlayed p) →
  Inv (recentlyPlayed (pending (playNext random songs r p))).
Proof.
  intros Hinv. unfold playNext.
  destruct (currentSong r); [|done].
  repeat case_decide; try done; try by apply playAt_history.
  destruct (repeatMode r); try done. by apply playAt_history.
Qed.

Lemma playPrevious_history songs r p :
  Inv (recentlyPlayed p) →
  Inv (recentlyPlayed (pending (playPrevious random songs r p))).
Proof.
  intros Hinv. unfold playPrevious.
  destruct (currentSong r); [|done].
  repeat case_decide; try done; by apply playAt_history.
Qed.

Lemma fire_history e app :
  Inv (recentlyPlayed (player app)) ∧ Inv (stored app) →
  Inv (recentlyPlayed (player (fire random e app))) ∧ Inv (stored (fire random e app)).
Proof.
  intros [Hinv Hstored]. destruct e; simpl; try done; try (split; [|done]).
  - destruct (library app !! index); [|done]. split; [|done].
    by apply playSong_history.
  - destruct (recentlyPlayed (player app) !! index); [|done]. split; [|done].
    by apply playSong_history.
  - unfold playPause, dispatch, togglePlayPause.
    by destruct (currentSong (player app)), (isPlaying (player app)).
  - by apply playNext_history.
  - by apply playPrevious_history.
  - unfold shuffle, dispatch, toggleShuffle. simpl.
    by destruct (isShuffleActive (player app)), (currentSong (player app)).
  - unfold cycleRepeat, dispatch, toggleRepeat.
    by destruct (at_index _ _).
  - unfold handleEnded. simpl.
    destruct (repeatMode (player app)); try done; by apply playNext_history.
  - unfold playPause, dispatch, togglePlayPause.
    by destruct (currentSong (player app)), (isPlaying (player app)).
  - by apply playNext_history.
  - by apply playPrevious_history.
  - split; [done|]. by apply Inv_storable.
Qed.

Lemma run_history events app :
  Inv (recentlyPlayed (player app)) ∧ Inv (stored app) →
  Inv (recentlyPlayed (player (run random events app))) ∧
  Inv (stored (run random events app)).
Proof.
  revert app. induction events as [|e events IH]; intros app Hinv; [done|].
  simpl. apply IH. by apply fire_history.
Qed.
End HistoryInvariant.

Lemma evict_HistoryOk t history : HistoryOk history → HistoryOk (evict t history).
Proof.
  intros [Hlen Hdistinct]. split; [|by apply evict_NoDup].
  pose proof (evict_length t history). lia.
Qed.

Lemma promote_HistoryOk song history : HistoryOk history → HistoryOk (promote song history).
Proof. intros [_ Hdistinct]. split; [apply promote_length|by apply promote_NoDup]. Qed.

Lemma storable_HistoryOk history : HistoryOk history → HistoryOk (storable <$> history).
Proof.
  unfold HistoryOk. rewrite length_fmap, <- list_fmap_compose.
  by replace (id ∘ storable) with id by done.
Qed.

(** ** Well-formedness through every event *)

Section Reachable.
Variable random : nat → Random01.
Implicit Types (songs : list Track) (p : Player) (app : App).

Lemma addSong_WellFormed now title artist editingFile songs p :
  WellFormed songs p →
  WellFormed (addSong now title artist editingFile songs) p.
Proof.
  intros [Hlib Hcur Hqueue Hshuffled Hrecent]. unfold addSong. split.
  - apply Forall_app. split; [done|]. apply Forall_singleton. by eexists.
  - intros c Hc. apply elem_of_app. left. by apply Hcur.
  - eapply Forall_impl; [done|]. intros t. apply known_mono.
  - eapply Forall_impl; [done|]. intros t. apply known_mono.
  - eapply Forall_impl; [done|]. intros t. apply known_mono.
Qed.

Lemma togglePlayPause_WellFormed songs r p :
  WellFormed songs p → WellFormed songs (pending (togglePlayPause r p)).
Proof.
  intros []. unfold_steps. by destruct (currentSong r), (isPlaying r).
Qed.

Lemma library_known songs : Forall (known songs) songs.
Proof. apply Forall_forall. intros t Ht. by apply known_member. Qed.

Lemma initialPlayer_WellFormed saved :
  Forall (λ t, file t = None) saved → WellFormed [] (initialPlayer saved).
Proof.
  intros Hsaved. split; simpl; try done; try by apply Forall_nil.
  eapply Forall_impl; [done|]. intros t Hnone [f Hf]. congruence.
Qed.

Lemma fire_WellFormed e app :
  WellFormed (library app) (player app) →
  e ≠ Reload →
  WellFormed (library (fire random e app)) (player (fire random e app)).
Proof.
  intros Hwf Hevent. destruct e; simpl; try (by destruct Hwf).
  - by apply addSong_WellFormed.
  - destruct (library app !! index) as [song|] eqn:Hsong; [|done]. simpl.
    apply playSong_WellFormed; [done| |by intros q [= <-]; apply library_known|done].
    apply known_member. by eapply list_elem_of_lookup_2.
  - destruct (recentlyPlayed (player app) !! index) as [song|] eqn:Hsong; [|done].
    simpl. apply playSong_WellFormed;
      [done| |by intros q [= <-]; apply (wf_recent _ _ Hwf)|done].
    by apply (Forall_lookup_1 _ _ _ _ (wf_recent _ _ Hwf) Hsong).
  - by apply togglePlayPause_WellFormed.
  - by apply playNext_WellFormed.
  - by apply playPrevious_WellFormed.
  - by apply toggleShuffle_WellFormed.
  - unfold cycleRepeat, dispatch, toggleRepeat.
    destruct Hwf. by destruct (at_index _ _).
  - unfold handleEnded. simpl.
    destruct (repeatMode (player app));
      [apply playNext_WellFormed; [apply subseteq_take| |done];
       by apply with_isPlaying_WellFormed..|by destruct Hwf].
  - by apply togglePlayPause_WellFormed.
  - apply playNext_WellFormed; [apply subseteq_take| |done].
    by apply with_repeatMode_WellFormed.
  - apply playPrevious_WellFormed; [apply subseteq_take|done..].
Qed.

Lemma fire_stored e app :
  e ≠ StoreHistory → stored (fire random e app) = stored app.
Proof.
  intros Hevent. destruct e; simpl; try done.
  - by destruct (library app !! index).
  - by destruct (recentlyPlayed (player app) !! index).
Qed.

Lemma fire_AppOk e app : AppOk app → AppOk (fire random e app).
Proof.
  intros [Hwf Hstored].
  destruct e;
    try (split; [by apply fire_WellFormed|by rewrite fire_stored]).
  - split; [by apply fire_WellFormed|].
    simpl. apply Forall_fmap. by apply Forall_true.
  - split; [|done]. simpl.
    by destruct (initialPlayer_WellFormed (stored app) Hstored).
Qed.

Lemma startApp_AppOk saved :
  Forall (λ t, file t = None) saved → AppOk (startApp saved).
Proof. intros Hsaved. split; [by apply initialPlayer_WellFormed|done]. Qed.

Lemma run_AppOk events app : AppOk app → AppOk (run random events app).
Proof.
  revert app. induction events as [|e events IH]; intros app Hok; [done|].
  simpl. apply IH. by apply fire_AppOk.
Qed.

(** In a well-formed session every track of the current song's id resolves,
    and to a song that carries its file. *)
Lemma WellFormed_current_resolves songs p X t :
  WellFormed songs p →
  currentSong p = Some X →
  id t = id X →
  ∃ song, resolve songs t = Some song ∧ is_Some (file song).
Proof.
  intros [Hlib Hcur _ _ _] HX Hid. unfold resolve, find.
  destruct (file t) as [f|] eqn:Hfile; [exists t; rewrite Hfile; eauto|].
  destruct (list_find_elem_of (λ s, id s = id t) songs X) as [[i song] Hfind];
    [by apply Hcur|done|].
  rewrite Hfind. exists song. split; [done|].
  apply list_find_Some in Hfind as (Hi & _).
  by apply (Forall_lookup_1 (λ s, is_Some (file s)) songs i song Hlib).
Qed.
End Reachable.

(** ** Every session the application can get to *)

(** X1. From the first start on (nothing stored) and whatever the events,
    the session stays well formed; so a track of the current song's id is
    never stale: it resolves, and to a song that carries its file. *)
Theorem current_track_always_resolves
    (random : nat → Random01) (events : list Event) (X t : Track) :
  currentSong (player (run random events (startApp []))) = Some X →
  id t = id X →
  ∃ song,
    resolve (library (run random events (startApp []))) t = Some song ∧
    is_Some (file song).
Proof.
  intros HX Hid.
  eapply WellFormed_current_resolves; [|done..].
  by apply run_AppOk, startApp_AppOk.
Qed.

(** In the sample session the entry of [songA] without its file resolves. *)
Lemma current_track_always_resolves_example :
  ∃ song,
    resolve (library (run sampleRandom (earlierSession ++ sampleStart)
                        (startApp []))) strippedA = Some song ∧
    is_Some (file song).
Proof.
  apply (current_track_always_resolves sampleRandom
           (earlierSession ++ sampleStart) songA strippedA).
  - vm_compute. reflexivity.
  - reflexivity.
Defined.

(** X2. From the first start on and whatever the events, the history, in
    the session and in the store, has at most 50 entries, no two of one
    id. *)
Theorem history_always_bounded_and_distinct
    (random : nat → Random01) (events : list Event) :
  HistoryOk (recentlyPlayed (player (run random events (startApp [])))) ∧
  HistoryOk (stored (run random events (startApp []))).
Proof.
  apply run_history;
    [apply evict_HistoryOk|apply promote_HistoryOk|apply storable_HistoryOk|].
  assert (HistoryOk []) by (split; [simpl; lia|apply NoDup_nil_2]).
  by split.
Qed.

(** ** Plays in the sessions the application can get to *)

(** A track that resolves in a library whose songs carry their files
    resolves to a song with its file. *)
Lemma resolve_live_has_file (songs : list Track) (songToPlay song : Track) :
  Forall (λ s, is_Some (file s)) songs →
  resolve songs songToPlay = Some song →
  is_Some (file song).
Proof.
  intros Hlib [[-> Hfile]|(_ & Hin & _)]%resolve_cases; [done|].
  by apply (proj1 (Forall_forall _ _) Hlib).
Qed.


(** C5, as the code has it.  In every session the application can get to,
    after a play of a track that is not stale (it resolves to [song]) the
    history has at most 50 entries, no two of one id, and [song] first;
    when an entry of [song]'s id was there already, the history has not
    grown. *)
Theorem play_live_history
    (random : nat → Random01) (events : list Event)
    (songToPlay : Track) (queue : option (list Track)) (song : Track) :
  let app := run random events (startApp []) in
  let st := player app in
  resolve (library app) songToPlay = Some song →
  let st' := play random (library app) songToPlay queue st in
  length (recentlyPlayed st') ≤ 50 ∧
  NoDup (id <$> recentlyPlayed st') ∧
  recentlyPlayed st' !! 0 = Some song ∧
  ((id song ∈ id <$> recentlyPlayed st) →
   length (recentlyPlayed st') ≤ length (recentlyPlayed st)).
Proof.
  intros app st Hsong.
  destruct (run_AppOk random events (startApp [])) as [Hwf _];
    [by apply startApp_AppOk|].
  assert (HistoryOk (recentlyPlayed st)) as [_ Hdistinct].
  { apply (run_history random HistoryOk);
      [apply evict_HistoryOk|apply promote_HistoryOk|apply storable_HistoryOk|].
    assert (HistoryOk []) by (split; [simpl; lia|apply NoDup_nil_2]). by split. }
  apply play_promotes; [done| |done].
  apply (resolve_live_has_file (library app) songToPlay song); [|done].
  apply Hwf.
Qed.

(** In the sample session, with the history [A, S], [songA] is clicked
    again in the Songs list. *)
Lemma play_live_history_example :
  let app := run sampleRandom (earlierSession ++ sampleStart) (startApp []) in
  let st := player app in
  let st' := play sampleRandom (library app) songA (Some (library app)) st in
  length (recentlyPlayed st') ≤ 50 ∧
  NoDup (id <$> recentlyPlayed st') ∧
  recentlyPlayed st' !! 0 = Some songA ∧
  ((id songA ∈ id <$> recentlyPlayed st) →
   length (recentlyPlayed st') ≤ length (recentlyPlayed st)).
Proof.
  apply (play_live_history sampleRandom (earlierSession ++ sampleStart)
           songA (Some (library (run sampleRandom (earlierSession ++ sampleStart)
                                   (startApp [])))) songA).
  vm_compute. reflexivity.
Defined.

(** ** Where the shuffled queue is anchored *)

(** X4. A play of a live track with a queue (every call in the source
    passes one) leaves the shuffled queue anchored. *)
Theorem play_live_anchors
    (random : nat → Random01) (songs : list Track) (p : Player)
    (songToPlay song : Track) (q : list Track) :
  resolve songs songToPlay = Some song →
  is_Some (file song) →
  Anchored (play random songs songToPlay (Some q) p).
Proof.
  intros Hsong [f Hfile] Hshuffle c Hc.
  destruct (play_queues random songs p songToPlay (Some q)) as (_ & Hsq & Hactive & _).
  rewrite Hactive in Hshuffle. rewrite Hsq, Hshuffle.
  exists songToPlay. split; [done|].
  pose proof (resolve_id songs _ _ Hsong) as Hid.
  destruct (isCurrent p song) eqn:Hsame.
  - destruct (play_current random songs p songToPlay (Some q) song Hsong Hsame)
      as (Hcur & _).
    rewrite Hcur in Hc. unfold isCurrent in Hsame. rewrite Hc in Hsame.
    apply bool_decide_eq_true in Hsame. congruence.
  - destruct (play_other random songs p songToPlay (Some q) song f Hsong Hfile Hsame)
      as (Hcur & _).
    rewrite Hcur in Hc. congruence.
Qed.

(** In the sample session, before the stale click, [songB] is played. *)
Lemma play_live_anchors_example :
  Anchored (play sampleRandom [songA; songB] songB (Some [songA; songB]) session2).
Proof.
  apply (play_live_anchors sampleRandom [songA; songB] session2 songB songB
           [songA; songB]); [reflexivity|by eexists].
Defined.

(** ** Repeat and shuffle toggles *)

(** X5. [toggleRepeat] goes off, all, one, off, and touches nothing else. *)
Theorem cycleRepeat_order (p : Player) :
  cycleRepeat p =
    with_repeatMode
      match repeatMode p with
      | RepeatOff => RepeatAll
      | RepeatAll => RepeatOne
      | RepeatOne => RepeatOff
      end p.
Proof. unfold cycleRepeat, dispatch, toggleRepeat. by destruct (repeatMode p). Qed.

(** X6. Shuffle switched on and off again: the plain queue was never
    touched, the shuffled queue is empty, and the active queue is the plain
    queue. *)
Theorem shuffle_on_then_off (random : nat → Random01) (p : Player) :
  isShuffleActive p = false →
  let p' := shuffle random (shuffle random p) in
  isShuffleActive p' = false ∧
  currentQueue p' = currentQueue p ∧
  shuffledQueue p' = [] ∧
  activeQueue p' = currentQueue p ∧
  currentSong p' = currentSong p.
Proof.
  intros Hoff. unfold activeQueue. unfold_steps. rewrite Hoff.
  destruct (currentSong p) eqn:Hcur; simpl; rewrite ?Hoff, ?Hcur; simpl; done.
Qed.

(** [songA] plays from the queue [A, B, C], shuffle off. *)
Lemma shuffle_on_then_off_example :
  let p := playingA [songA; songB; songC] RepeatOff in
  let p' := shuffle sampleRandom (shuffle sampleRandom p) in
  isShuffleActive p' = false ∧
  currentQueue p' = currentQueue p ∧
  shuffledQueue p' = [] ∧
  activeQueue p' = currentQueue p ∧
  currentSong p' = currentSong p.
Proof.
  apply (shuffle_on_then_off sampleRandom (playingA [songA; songB; songC] RepeatOff)).
  reflexivity.
Defined.

(** ** The anchor through every event *)

Section Anchor.
Variable random : nat → Random01.
Implicit Types (songs oldSongs : list Track) (p r : Player) (t : Track).

(** A call of [playSong] with a queue that shows no alert leaves the
    shuffled queue anchored; the render [r] agrees with the pending state on
    what the anchor is about. *)
Lemma playSong_anchor oldSongs r t q p :
  isShuffleActive r = isShuffleActive p →
  currentSong r = currentSong p →
  (∀ song, resolve oldSongs t = Some song → is_Some (file song)) →
  alerts (pending (playSong random oldSongs r t (Some q) p)) = alerts p →
  Anchored (pending (playSong random oldSongs r t (Some q) p)).
Proof.
  intros Hshuffle Hcur Hfile. unfold Anchored. unfold_steps.
  destruct (resolve oldSongs t) as [song|] eqn:Hsong.
  - destruct (Hfile song eq_refl) as [f Hf]. rewrite Hf.
    pose proof (resolve_id oldSongs t song Hsong) as Hid.
    unfold isCurrent. rewrite Hcur.
    destruct (currentSong p) as [c|] eqn:Hc;
      [destruct (bool_decide (id c = id song)) eqn:Hsame|];
      destruct (isShuffleActive r), (isPlaying r); simpl;
      rewrite <- ?Hshuffle, ?Hc; intros _ ? c' [= <-]; try done;
      exists t; split; try done.
    all: apply bool_decide_eq_true in Hsame; congruence.
  - destruct (isShuffleActive r); simpl; lia.
Qed.

Lemma playAt_anchor songs oldSongs r index p :
  oldSongs ⊆ songs → WellFormed songs r →
  isShuffleActive r = isShuffleActive p →
  currentSong r = currentSong p →
  Anchored p →
  alerts (pending (playAt random oldSongs r index p)) = alerts p →
  Anchored (pending (playAt random oldSongs r index p)).
Proof.
  intros Hsub Hr Hshuffle Hcur Hp. unfold playAt.
  destruct (at_index (activeQueue r) index) as [x|] eqn:Hx; [|done].
  apply playSong_anchor; [done..|].
  intros song Hsong.
  assert (known songs x) as Hknown.
  { unfold at_index in Hx. case_decide; [|done].
    apply list_elem_of_lookup_2 in Hx. unfold activeQueue in Hx.
    destruct (isShuffleActive r);
      [by apply (proj1 (Forall_forall _ _) (wf_shuffled _ _ Hr))
      |by apply (proj1 (Forall_forall _ _) (wf_queue _ _ Hr))]. }
  pose proof (resolve_member songs oldSongs x song Hsub Hknown Hsong) as Hin.
  by apply (proj1 (Forall_forall _ _) (wf_library _ _ Hr)).
Qed.

Lemma playNext_anchor songs oldSongs r p :
  oldSongs ⊆ songs → WellFormed songs r →
  isShuffleActive r = isShuffleActive p →
  currentSong r = currentSong p →
  Anchored p →
  alerts (pending (playNext random oldSongs r p)) = alerts p →
  Anchored (pending (playNext random oldSongs r p)).
Proof.
  intros Hsub Hr Hshuffle Hcur Hp. unfold playNext.
  destruct (currentSong r) eqn:Hcur'; [|done]. rewrite <- Hcur' in Hcur.
  repeat case_decide; try done; try by apply (playAt_anchor songs).
  destruct (repeatMode r); try (intros _; exact Hp).
  by apply (playAt_anchor songs).
Qed.

Lemma playPrevious_anchor songs oldSongs r p :
  oldSongs ⊆ songs → WellFormed songs r →
  isShuffleActive r = isShuffleActive p →
  currentSong r = currentSong p →
  Anchored p →
  alerts (pending (playPrevious random oldSongs r p)) = alerts p →
  Anchored (pending (playPrevious random oldSongs r p)).
Proof.
  intros Hsub Hr Hshuffle Hcur Hp. unfold playPrevious.
  destruct (currentSong r) eqn:Hcur'; [|done]. rewrite <- Hcur' in Hcur.
  repeat case_decide; try done; by apply (playAt_anchor songs).
Qed.

Lemma togglePlayPause_Anchored r p :
  Anchored p → Anchored (pending (togglePlayPause r p)).
Proof. intros Hp. unfold_steps. by destruct (currentSong r), (isPlaying r). Qed.

Lemma toggleShuffle_Anchored p : Anchored (shuffle random p).
Proof.
  unfold Anchored. unfold_steps.
  destruct (isShuffleActive p), (currentSong p) as [c|] eqn:Hc; simpl;
    rewrite ?Hc; try done.
  intros _ c' [= <-]. by exists c.
Qed.
End Anchor.

(** Every event that shows no alert keeps the anchor. *)
Section AnchorEvents.
Variable random : nat → Random01.
Implicit Types (songs : list Track) (p r : Player) (app : App).

Lemma resolve_has_file songs oldSongs p t song :
  oldSongs ⊆ songs → WellFormed songs p → known songs t →
  resolve oldSongs t = Some song → is_Some (file song).
Proof.
  intros Hsub Hwf Hknown Hsong.
  pose proof (resolve_member songs oldSongs t song Hsub Hknown Hsong) as Hin.
  by apply (proj1 (Forall_forall _ _) (wf_library _ _ Hwf)).
Qed.

Lemma fire_anchor e app :
  WellFormed (library app) (player app) →
  Anchored (player app) →
  alerts (player (fire random e app)) = alerts (player app) →
  Anchored (player (fire random e app)).
Proof.
  intros Hwf Hanchored. destruct e; simpl; try (intros _; exact Hanchored).
  - destruct (library app !! index) as [song|] eqn:Hsong; [|done]. simpl.
    apply playSong_anchor; [done..|]. intros s.
    apply (resolve_has_file (library app) (library app) (player app)); [done..|].
    apply known_member. by eapply list_elem_of_lookup_2.
  - destruct (recentlyPlayed (player app) !! index) as [song|] eqn:Hsong; [|done].
    simpl. apply playSong_anchor; [done..|]. intros s.
    apply (resolve_has_file (library app) (library app) (player app)); [done..|].
    by apply (Forall_lookup_1 _ _ _ _ (wf_recent _ _ Hwf) Hsong).
  - intros _. by apply togglePlayPause_Anchored.
  - by apply (playNext_anchor random (library app)).
  - by apply (playPrevious_anchor random (library app)).
  - intros _. apply toggleShuffle_Anchored.
  - intros _. unfold cycleRepeat, dispatch, toggleRepeat.
    by destruct (at_index _ _).
  - unfold handleEnded. simpl.
    destruct (repeatMode (player app)); try (intros _; exact Hanchored).
    all: apply (playNext_anchor random (library app));
      [apply subseteq_take|by apply with_isPlaying_WellFormed|done..].
  - intros _. by apply togglePlayPause_Anchored.
  - apply (playNext_anchor random (library app));
      [apply subseteq_take|by apply with_repeatMode_WellFormed|done..].
  - apply (playPrevious_anchor random (library app));
      [apply subseteq_take|done..].
  - by intros _ [=].
Qed.

(** The alerts only count up, until the page is loaded anew. *)
Lemma playSong_alerts songs r t queue p :
  alerts p ≤ alerts (pending (playSong random songs r t queue p)).
Proof.
  unfold_steps.
  destruct (resolve songs t) as [song|];
    [destruct (isCurrent r song), (currentSong r), (isPlaying r), (file song)|];
    destruct queue as [q|], (isShuffleActive r); simpl; lia.
Qed.

Lemma playAt_alerts songs r index p :
  alerts p ≤ alerts (pending (playAt random songs r index p)).
Proof.
  unfold playAt. destruct (at_index (activeQueue r) index); [|done].
  apply playSong_alerts.
Qed.

Lemma playNext_alerts songs r p :
  alerts p ≤ alerts (pending (playNext random songs r p)).
Proof.
  unfold playNext. destruct (currentSong r); [|done].
  repeat case_decide; try done; try apply playAt_alerts.
  destruct (repeatMode r); try done. apply playAt_alerts.
Qed.

Lemma playPrevious_alerts songs r p :
  alerts p ≤ alerts (pending (playPrevious random songs r p)).
Proof.
  unfold playPrevious. destruct (currentSong r); [|done].
  repeat case_decide; try done; apply playAt_alerts.
Qed.

Lemma fire_alerts e app :
  e ≠ Reload → alerts (player app) ≤ alerts (player (fire random e app)).
Proof.
  intros Hevent. destruct e; simpl; try done.
  - destruct (library app !! index); [|done]. apply playSong_alerts.
  - destruct (recentlyPlayed (player app) !! index); [|done]. apply playSong_alerts.
  - unfold playPause. unfold_steps.
    by destruct (currentSong (player app)), (isPlaying (player app)).
  - apply playNext_alerts.
  - apply playPrevious_alerts.
  - unfold_steps. by destruct (isShuffleActive (player app)), (currentSong (player app)).
  - unfold cycleRepeat, dispatch, toggleRepeat. by destruct (at_index _ _).
  - unfold handleEnded. simpl.
    destruct (repeatMode (player app)); try done; apply playNext_alerts.
  - unfold playPause. unfold_steps.
    by destruct (currentSong (player app)), (isPlaying (player app)).
  - apply playNext_alerts.
  - apply playPrevious_alerts.
Qed.

Lemma fire_QuietlyAnchored e app :
  WellFormed (library app) (player app) →
  QuietlyAnchored app → QuietlyAnchored (fire random e app).
Proof.
  intros Hwf Hquiet Hzero.
  assert (e = Reload ∨ e ≠ Reload) as [->|Hevent]
    by (destruct e; auto).
  { by intros [=]. }
  pose proof (fire_alerts e app Hevent).
  apply fire_anchor; [done| |lia]. apply Hquiet. lia.
Qed.

Lemma run_QuietlyAnchored events app :
  AppOk app → QuietlyAnchored app → QuietlyAnchored (run random events app).
Proof.
  revert app. induction events as [|e events IH]; intros app Hok Hquiet; [done|].
  simpl. apply IH; [by apply fire_AppOk|].
  apply fire_QuietlyAnchored; [apply Hok|done].
Qed.
End AnchorEvents.

(** X3. From the first start on, as long as the page has shown no alert
    since it was loaded (no play has aborted on a stale track), the session
    is anchored: under shuffle the shuffled queue starts with a track of
    the current song's id. *)
Theorem anchored_until_a_stale_abort
    (random : nat → Random01) (events : list Event) :
  alerts (player (run random events (startApp []))) = 0 →
  Anchored (player (run random events (startApp []))).
Proof.
  apply (run_QuietlyAnchored random events (startApp []));
    [by apply startApp_AppOk|]. by intros _ [=].
Qed.

(** The sample session before the stale click has shown no alert. *)
Lemma anchored_until_a_stale_abort_example : Anchored session2.
Proof.
  apply (anchored_until_a_stale_abort sampleRandom (earlierSession ++ sampleStart)).
  vm_compute. reflexivity.
Defined.

(** ** No handler throws *)

Section Returns.
Variable random : nat → Random01.
Implicit Types (songs oldSongs : list Track) (p r : Player) (t : Track).

Lemma at_index_in_range {A} (l : list A) (i : Z) :
  (0 ≤ i < Z.of_nat (length l))%Z → is_Some (at_index l i).
Proof.
  intros Hi. unfold at_index. rewrite decide_True by lia.
  apply lookup_lt_is_Some_2. lia.
Qed.

Lemma findIndex_range {A} (P : A → Prop) `{!∀ x, Decision (P x)} (l : list A) :
  findIndex P l = (-1)%Z ∨ (0 ≤ findIndex P l < Z.of_nat (length l))%Z.
Proof.
  unfold findIndex. destruct (list_find P l) as [[i x]|] eqn:Hfind; [|by left].
  right. apply list_find_Some in Hfind as (Hi%lookup_lt_Some & _). lia.
Qed.

Lemma playSong_returns oldSongs r t queue p :
  (∀ song, resolve oldSongs t = Some song → is_Some (file song)) →
  ∃ p', playSong random oldSongs r t queue p = Returned p'.
Proof.
  intros Hfile. unfold_steps.
  destruct (resolve oldSongs t) as [song|] eqn:Hsong.
  - destruct (Hfile song eq_refl) as [f ->].
    destruct (isCurrent r song), (currentSong r), (isPlaying r), queue as [q|],
      (isShuffleActive r); simpl; eauto.
  - destruct queue as [q|], (isShuffleActive r); simpl; eauto.
Qed.

Lemma playAt_returns songs oldSongs r index p :
  oldSongs ⊆ songs → WellFormed songs r →
  (0 ≤ index < Z.of_nat (length (activeQueue r)))%Z →
  ∃ p', playAt random oldSongs r index p = Returned p'.
Proof.
  intros Hsub Hr Hindex. unfold playAt.
  destruct (at_index_in_range _ _ Hindex) as [x Hx]. rewrite Hx.
  apply playSong_returns. intros song.
  apply (resolve_has_file songs oldSongs r); [done..|].
  unfold at_index in Hx. case_decide; [|done].
  apply list_elem_of_lookup_2 in Hx. unfold activeQueue in Hx.
  destruct (isShuffleActive r);
    [by apply (proj1 (Forall_forall _ _) (wf_shuffled _ _ Hr))
    |by apply (proj1 (Forall_forall _ _) (wf_queue _ _ Hr))].
Qed.

Lemma playNext_returns songs oldSongs r p :
  oldSongs ⊆ songs → WellFormed songs r →
  ∃ p', playNext random oldSongs r p = Returned p'.
Proof.
  intros Hsub Hr. unfold playNext.
  destruct (currentSong r) as [current|]; [|by eexists].
  pose proof (findIndex_range (λ s, id s = id current) (activeQueue r)) as Hrange.
  repeat case_decide; try (by eexists); try lia.
  - destruct (repeatMode r); try (by eexists).
    apply (playAt_returns songs); [done..|lia].
  - apply (playAt_returns songs); [done..|lia].
Qed.

Lemma playPrevious_returns songs oldSongs r p :
  oldSongs ⊆ songs → WellFormed songs r →
  ∃ p', playPrevious random oldSongs r p = Returned p'.
Proof.
  intros Hsub Hr. unfold playPrevious.
  destruct (currentSong r) as [current|]; [|by eexists].
  pose proof (findIndex_range (λ s, id s = id current) (activeQueue r)) as Hrange.
  repeat case_decide; try (by eexists); try lia.
  apply (playAt_returns songs); [done..|].
  apply Z.rem_bound_pos; lia.
Qed.
End Returns.

(** X7. In a well-formed session (every reachable one is) no handler
    throws: [playNext] and [playPrevious] read the active queue within its
    bounds, and [URL.createObjectURL] is handed a file.  The render may be
    one with a library of an earlier day. *)
Theorem handlers_never_throw
    (random : nat → Random01) (songs oldSongs : list Track) (r p : Player) :
  oldSongs ⊆ songs →
  WellFormed songs r →
  (∃ p', playNext random oldSongs r p = Returned p') ∧
  (∃ p', playPrevious random oldSongs r p = Returned p') ∧
  (∃ p', handleEnded random oldSongs r p = Returned p') ∧
  (∀ t queue, known songs t →
     ∃ p', playSong random oldSongs r t queue p = Returned p').
Proof.
  intros Hsub Hr. split_and!.
  - by apply (playNext_returns random songs).
  - by apply (playPrevious_returns random songs).
  - unfold handleEnded. destruct (repeatMode r);
      try (by apply (playNext_returns random songs)). by eexists.
  - intros t queue Hknown. apply playSong_returns. intros song.
    by apply (resolve_has_file songs oldSongs r).
Qed.

(** In the sample session, where the active queue starts with a stale
    track, [playNext] returns. *)
Lemma handlers_never_throw_example :
  ∃ p', playNext sampleRandom [songA] session4 session4 = Returned p'.
Proof.
  destruct (handlers_never_throw sampleRandom [songA] [songA] session4 session4)
    as [Hnext _]; [done| |exact Hnext].
  apply (run_AppOk sampleRandom
           (earlierSession ++ sampleStart ++ [ClickRecent 1; PressRepeat])
           (startApp [])).
  by apply startApp_AppOk.
Defined.

(** ** The time display *)

Lemma Qfloor_div60 (t : Q) : Qfloor (t / 60) = (Qfloor t `div` 60)%Z.
Proof.
  destruct t as [n d]. unfold Qdiv, Qmult, Qinv, Qfloor. simpl.
  rewrite Z.mul_1_r, Pos2Z.inj_mul, Z.div_div by lia. done.
Qed.

Lemma Qfloor_minus_Z (t : Q) (k : Z) : Qfloor (t - inject_Z k) = (Qfloor t - k)%Z.
Proof.
  destruct t as [n d]. unfold Qminus, Qplus, Qopp, inject_Z, Qfloor. simpl.
  rewrite Pos.mul_1_r, Z.mul_1_r.
  replace (n + - k * Z.pos d)%Z with (n + (- k) * Z.pos d)%Z by lia.
  rewrite Z.div_add by lia. lia.
Qed.

Lemma truncate_nonneg (q : Q) : (0 <= q)%Q → truncate q = Qfloor q.
Proof.
  intros Hq. unfold truncate.
  by rewrite (proj2 (Qle_bool_iff 0 q) Hq).
Qed.

Lemma Qfloor_modulo60 (t : Q) : (0 <= t)%Q → Qfloor (modulo60 t) = (Qfloor t `mod` 60)%Z.
Proof.
  intros Ht. unfold modulo60.
  rewrite truncate_nonneg.
  - rewrite Qfloor_minus_Z, Qfloor_div60. rewrite (Z.mod_eq (Qfloor t) 60) by lia. lia.
  - apply Qle_shift_div_l; [done|]. by rewrite Qmult_0_l.
Qed.

(** The text of a number below 60, after the ['0'] that pads one digit. *)
Lemma seconds_two_digits (n : nat) :
  n < 60 →
  let s := Z.of_nat n in
  (if decide (s < 10)%Z then "0" else "") +:+ pretty s =
    String (digit (s `div` 10)) (String (digit (s `mod` 10)) "").
Proof.
  intros Hn. do 60 (destruct n as [|n]; [vm_compute; reflexivity|]). lia.
Qed.

Lemma formatTime_whole (t : Q) :
  (0 <= t)%Q →
  let whole := Qfloor t in
  formatTime t =
    pretty (whole `div` 60)%Z +:+ ":" +:+
    String (digit ((whole `mod` 60) `div` 10))
      (String (digit ((whole `mod` 60) `mod` 10)) "").
Proof.
  intros Ht whole. unfold formatTime.
  rewrite Qfloor_div60, Qfloor_modulo60 by done. fold whole.
  pose proof (Z.mod_pos_bound whole 60) as Hbound.
  pose proof (seconds_two_digits (Z.to_nat (whole `mod` 60))) as Hdigits.
  rewrite Z2Nat.id in Hdigits by lia. simpl in Hdigits.
  by rewrite Hdigits by lia.
Qed.

Lemma length_append (a b : string) :
  String.length (a +:+ b) = String.length a + String.length b.
Proof. induction a as [|c a IH]; [done|]. simpl. by rewrite IH. Qed.

(** Two texts that end in parts of one length. *)
Lemma append_inj_suffix (a b s1 s2 : string) :
  String.length s1 = String.length s2 →
  a +:+ s1 = b +:+ s2 → a = b ∧ s1 = s2.
Proof.
  revert b. induction a as [|c a IH]; intros [|c' b] Hlen Heq.
  - done.
  - apply (f_equal String.length) in Heq.
    rewrite !length_append in Heq. simpl in Heq. lia.
  - apply (f_equal String.length) in Heq.
    rewrite !length_append in Heq. simpl in Heq. lia.
  - injection Heq as -> Heq. destruct (IH b Hlen Heq) as [-> ->]. done.
Qed.

Lemma digit_inj (x y : Z) :
  (0 ≤ x < 10)%Z → (0 ≤ y < 10)%Z → digit x = digit y → x = y.
Proof.
  intros Hx Hy Heq. apply pretty_N_char_inj in Heq; lia.
Qed.

Lemma tens_below_10 (whole : Z) : (0 ≤ (whole `mod` 60) `div` 10 < 10)%Z.
Proof.
  pose proof (Z.mod_pos_bound whole 60). split.
  - apply Z.div_pos; lia.
  - apply Z.div_lt_upper_bound; lia.
Qed.

(** X8. [formatTime] of a time from zero up to [2^53] seconds (where the
    doubles of the code divide and print as the rationals here do) shows
    the whole seconds elapsed as minutes, a colon and two digits of seconds:
    the minutes are not carried into hours, the seconds are below 60 and
    padded with a zero. *)
Theorem formatTime_minutes_and_seconds (t : Q) :
  (0 <= t)%Q →
  (t < inject_Z (2 ^ 53))%Q →
  let whole := Qfloor t in
  formatTime t =
    pretty (whole `div` 60)%Z +:+ ":" +:+
    String (digit ((whole `mod` 60) `div` 10))
      (String (digit ((whole `mod` 60) `mod` 10)) "").
Proof. intros Ht _. by apply formatTime_whole. Qed.

(** An hour, two minutes and five seconds and a half. *)
Lemma formatTime_minutes_and_seconds_example :
  formatTime (7451 # 2) = "62:05".
Proof.
  rewrite (formatTime_minutes_and_seconds (7451 # 2)); [reflexivity|done|done].
Defined.

(** X9. Two times from zero up to [2^53] seconds are shown alike exactly
    when they are in the same whole second. *)
Theorem formatTime_tells_seconds_apart (t1 t2 : Q) :
  (0 <= t1)%Q → (t1 < inject_Z (2 ^ 53))%Q →
  (0 <= t2)%Q → (t2 < inject_Z (2 ^ 53))%Q →
  formatTime t1 = formatTime t2 ↔ Qfloor t1 = Qfloor t2.
Proof.
  intros Ht1 _ Ht2 _. rewrite !formatTime_whole by done. simpl. split.
  - intros Heq.
    apply append_inj_suffix in Heq as [Hminutes Hseconds]; [|done].
    apply (inj pretty) in Hminutes.
    injection Hseconds as Htens Hunits.
    apply digit_inj in Htens; [|by apply tens_below_10..].
    apply digit_inj in Hunits; [|by apply Z.mod_pos_bound..].
    rewrite (Z.div_mod (Qfloor t1) 60), (Z.div_mod (Qfloor t2) 60) by done.
    rewrite (Z.div_mod (Qfloor t1 `mod` 60) 10),
      (Z.div_mod (Qfloor t2 `mod` 60) 10) by done.
    by rewrite Hminutes, Htens, Hunits.
  - by intros ->.
Qed.

(** 3725.5 s and 3725 s are in one second. *)
Lemma formatTime_tells_seconds_apart_example :
  formatTime (7451 # 2) = formatTime (3725 # 1) ↔ Qfloor (7451 # 2) = Qfloor (3725 # 1).
Proof. apply (formatTime_tells_seconds_apart (7451 # 2) (3725 # 1)); done. Defined.

(** X10. The bar of the mini player: with a progress between zero and the
    duration, [progressPercent] lies between 0 and 100, also for a duration
    of zero (no metadata yet). *)
Theorem progressPercent_within_the_bar (p : Player) :
  (0 <= progress p)%Q →
  (progress p <= duration p)%Q →
  (0 <= progressPercent p)%Q ∧ (progressPercent p <= 100)%Q.
Proof.
  intros Hlow Hhigh. unfold progressPercent.
  destruct (Qlt_le_dec 0 (duration p)) as [Hpos|Hzero]; [|done].
  split.
  - apply Qmult_le_0_compat; [|done].
    apply Qle_shift_div_l; [done|]. by rewrite Qmult_0_l.
  - apply Qle_trans with (1 * 100)%Q; [|done].
    apply Qmult_le_compat_r; [|done].
    apply Qle_shift_div_r; [done|]. by rewrite Qmult_1_l.
Qed.

(** A quarter of the track has played. *)
Lemma progressPercent_within_the_bar_example :
  let p := with_duration 240 (with_progress 60 (initialPlayer [])) in
  (0 <= progressPercent p)%Q ∧ (progressPercent p <= 100)%Q.
Proof.
  apply (progressPercent_within_the_bar
           (with_duration 240 (with_progress 60 (initialPlayer [])))); done.
Defined.

(** ** The title that the Import page proposes *)

Lemma allPlain_dot (a b : string) : allPlain (a +:+ "." +:+ b) = false.
Proof.
  induction a as [|c a IH]; [done|].
  change (plainChar c && allPlain (a +:+ "." +:+ b) = false).
  rewrite IH. apply andb_false_r.
Qed.

Lemma extensionAt_plain (ext : string) :
  ext ≠ "" → allPlain ext = true → extensionAt ("." +:+ ext) = true.
Proof. intros Hext Hplain. by destruct ext. Qed.

(** A match at the start is the whole text: a dot and a plain rest. *)
Lemma extensionAt_inv (s : string) :
  extensionAt s = true → ∃ ext, s = String "." ext ∧ ext ≠ "" ∧ allPlain ext = true.
Proof.
  destruct s as [|c [|c' s]]; try done.
  - unfold extensionAt. by repeat case_match.
  - intros Hmatch. exists (String c' s).
    assert (c = "."%char) as ->.
    { unfold extensionAt in Hmatch. by repeat case_match. }
    done.
Qed.

(** With a dot further on, there is no match at the start. *)
Lemma extensionAt_before_dot (c : ascii) (a b : string) :
  extensionAt (String c (a +:+ "." +:+ b)) = false.
Proof.
  destruct (extensionAt (String c (a +:+ "." +:+ b))) eqn:Hmatch; [|done].
  apply extensionAt_inv in Hmatch as (ext & [= _ <-] & _ & Hplain).
  by rewrite allPlain_dot in Hplain.
Qed.

Lemma withoutExtension_unfold (s : string) :
  withoutExtension s =
    if extensionAt s then EmptyString
    else match s with
         | EmptyString => EmptyString
         | String c s' => String c (withoutExtension s')
         end.
Proof. by destruct s. Qed.

Lemma withoutExtension_cut (base ext : string) :
  ext ≠ "" → allPlain ext = true →
  withoutExtension (base +:+ "." +:+ ext) = base.
Proof.
  intros Hext Hplain. induction base as [|c base IH].
  - rewrite withoutExtension_unfold.
    change ("" +:+ "." +:+ ext) with ("." +:+ ext).
    by rewrite extensionAt_plain.
  - rewrite withoutExtension_unfold.
    change (String c base +:+ "." +:+ ext) with (String c (base +:+ "." +:+ ext)).
    by rewrite extensionAt_before_dot, IH.
Qed.

Lemma withoutExtension_kept (fileName : string) :
  (∀ base ext, fileName = base +:+ "." +:+ ext → ext = "" ∨ allPlain ext = false) →
  withoutExtension fileName = fileName.
Proof.
  induction fileName as [|c s IH]; intros Hnone; [done|].
  rewrite withoutExtension_unfold.
  destruct (extensionAt (String c s)) eqn:Hmatch.
  - apply extensionAt_inv in Hmatch as (ext & Hs & Hext & Hplain).
    destruct (Hnone "" ext Hs); congruence.
  - rewrite IH; [done|]. intros base ext ->.
    by apply (Hnone (String c base) ext).
Qed.

(** X11. The title that the modal proposes, [file.name] without the match of
    [/\.[^/.]+$/]: a name that ends in a dot and an extension (one character
    or more, no dot and no slash) loses that last extension and nothing
    else, so a name that is an extension alone gives the empty title; any
    other name is kept whole. *)
Theorem withoutExtension_cuts_the_last_extension (fileName : string) :
  (∀ base ext,
     fileName = base +:+ "." +:+ ext → ext ≠ "" → allPlain ext = true →
     withoutExtension fileName = base) ∧
  ((∀ base ext,
      fileName = base +:+ "." +:+ ext → ext = "" ∨ allPlain ext = false) →
   withoutExtension fileName = fileName).
Proof.
  split.
  - intros base ext -> Hext Hplain. by apply withoutExtension_cut.
  - apply withoutExtension_kept.
Qed.

(** Only [mp3] goes; a name of an extension alone leaves nothing. *)
Lemma withoutExtension_cuts_the_last_extension_example :
  withoutExtension "01. Intro.live.mp3" = "01. Intro.live" ∧
  withoutExtension ".mp3" = "".
Proof.
  split.
  - by apply (proj1 (withoutExtension_cuts_the_last_extension "01. Intro.live.mp3")
                "01. Intro.live" "mp3").
  - by apply (proj1 (withoutExtension_cuts_the_last_extension ".mp3") "" "mp3").
Defined.

(** ** The Import page *)

(** Typing keeps the modal open on its file, and each field holds what was
    typed into it last. *)
Lemma typing_keeps_file (typing : list Gesture) (s : Screen) (file : PickedFile) :
  Forall isTyping typing →
  editingFile (form s) = Some file →
  let s' := gestures typing s in
  editingFile (form s') = Some file ∧
  app s' = app s ∧
  activeItem s' = activeItem s ∧
  formTitle (form s') = typedTitle typing (formTitle (form s)) ∧
  formArtist (form s') = typedArtist typing (formArtist (form s)).
Proof.
  revert s. induction typing as [|g typing IH]; intros s Htyping Hfile; [done|].
  apply Forall_cons in Htyping as [Hg Htyping].
  assert (editingFile (form (gesture g s)) = Some file ∧
          app (gesture g s) = app s ∧
          activeItem (gesture g s) = activeItem s ∧
          formTitle (form (gesture g s))
            = match g with TypeTitle typed => typed | _ => formTitle (form s) end ∧
          formArtist (form (gesture g s))
            = match g with TypeArtist typed => typed | _ => formArtist (form s) end)
    as (Hfile' & Happ & Hitem & Htitle & Hartist).
  { destruct g; try done; simpl; by rewrite Hfile. }
  destruct (IH (gesture g s) Htyping Hfile') as (? & ? & ? & Ht & Ha).
  simpl. rewrite <- Htitle, <- Hartist.
  split_and!; [done|congruence|congruence|done|done].
Qed.

(** X12. On the Import page, files are chosen, the fields of the modal are
    typed in or left alone, and the form is submitted: the library gains one
    song, which carries the first of the chosen files; its title is what was
    typed into the title field last, or else the name of that file without
    its extension, and its artist what was typed into the artist field
    last, or else Unknown Artist.  The other files are dropped with the
    selection, the Songs page is shown, and the player is not touched. *)
Theorem import_takes_the_first_file_only
    (s : Screen) (first : PickedFile) (others : list PickedFile)
    (typing : list Gesture) (now : N) :
  activeItem s = ImportItem →
  Forall isTyping typing →
  let s' := gestures (ChooseFiles (first :: others) :: typing ++ [SubmitModal now]) s in
  library (app s') =
    library (app s) ++
      [{| id := now;
          title := typedTitle typing (withoutExtension (name first));
          artist := typedArtist typing "Unknown Artist";
          albumArtUrl := "https://placehold.co/64x64/png";
          file := Some (content first) |}] ∧
  player (app s') = player (app s) ∧
  activeItem s' = SongsItem ∧
  form s' = mountImport.
Proof.
  intros Hitem Htyping. unfold gestures. simpl.
  rewrite foldl_app. simpl. rewrite decide_True by done.
  set (chosen := withForm (handleFileChange (first :: others)) s).
  destruct (typing_keeps_file typing chosen first Htyping eq_refl)
    as (Hfile & Happ & Hactive & Htitle & Hartist).
  fold (gestures typing chosen).
  unfold handleSaveMetadata. rewrite Hfile. simpl.
  rewrite Happ, Hactive, Htitle, Hartist. split_and!; [done..|].
  subst chosen. simpl. rewrite Hitem. by rewrite decide_False.
Qed.

(** Two files are chosen, a title is typed and typed over, the artist is
    left alone. *)
Lemma import_takes_the_first_file_only_example :
  let s := {| app := startApp []; activeItem := ImportItem; form := mountImport |} in
  let s' := gestures [ChooseFiles [{| name := "a.mp3"; content := Blob 1 |};
                                   {| name := "b.mp3"; content := Blob 2 |}];
                      TypeTitle "A"; TypeTitle "A1"; SubmitModal 7] s in
  library (app s') =
    [{| id := 7; title := "A1"; artist := "Unknown Artist";
        albumArtUrl := "https://placehold.co/64x64/png";
        file := Some (Blob 1) |}] ∧
  player (app s') = player (app s) ∧
  activeItem s' = SongsItem ∧
  form s' = mountImport.
Proof.
  apply (import_takes_the_first_file_only
           {| app := startApp []; activeItem := ImportItem; form := mountImport |}
           {| name := "a.mp3"; content := Blob 1 |}
           [{| name := "b.mp3"; content := Blob 2 |}]
           [TypeTitle "A"; TypeTitle "A1"] 7).
  - reflexivity.
  - by repeat constructor.
Defined.

(** ** Settings and their store *)

Section SettingsFacts.
Variable defaults : Settings.
Implicit Types (s : Settings) (saved : option Settings).

Lemma complete_defaults : complete defaults defaults.
Proof. by intros key. Qed.

Lemma complete_spread s : complete defaults (spread defaults s).
Proof.
  intros key Hkey. unfold spread. rewrite lookup_union.
  destruct (s !! key), Hkey as [v ->]; by eexists.
Qed.

Lemma complete_insert s key value :
  complete defaults s → complete defaults (<[key := value]> s).
Proof.
  intros Hs k Hk. destruct (decide (key = k)) as [->|Hne].
  - rewrite lookup_insert_eq. by eexists.
  - rewrite lookup_insert_ne by done. by apply Hs.
Qed.

Lemma complete_load saved : complete defaults (loadSettings defaults saved).
Proof. destruct saved; [apply complete_spread|apply complete_defaults]. Qed.

(** A complete object read back from the store is itself. *)
Lemma spread_complete s : complete defaults s → spread defaults s = s.
Proof.
  intros Hs. apply map_eq. intros key. unfold spread. rewrite lookup_union.
  destruct (s !! key) as [v|] eqn:Hv; [by destruct (defaults !! key)|].
  destruct (defaults !! key) as [d|] eqn:Hd; [|done].
  destruct (Hs key) as [v Hv']; [by eexists|]. congruence.
Qed.
End SettingsFacts.

(** The settings have every key of the defaults, whatever the store does. *)
Lemma mountAppearance_complete accepted saved :
  complete defaultAppearanceSettings (valueOf (settings (mountAppearance accepted saved))).
Proof. destruct saved; [apply complete_spread|apply complete_defaults]. Qed.

Lemma fireAppearance_complete e a :
  complete defaultAppearanceSettings (valueOf (settings a)) →
  complete defaultAppearanceSettings (valueOf (settings (fireAppearance e a))).
Proof.
  intros Hcomplete. destruct e; simpl.
  - unfold AppearanceSettings.handleThemeChange. repeat case_decide; simpl.
    + apply complete_defaults.
    + apply complete_spread.
    + by apply complete_insert.
  - by do 2 apply complete_insert.
  - unfold resetSettings. destruct removed; [apply complete_defaults|done].
  - apply (mountAppearance_complete accepted (appearanceStore a)).
Qed.

Lemma runAppearance_complete events a :
  complete defaultAppearanceSettings (valueOf (settings a)) →
  complete defaultAppearanceSettings (valueOf (settings (runAppearance events a))).
Proof.
  revert a. induction events as [|e events IH]; intros a Ha; [done|].
  simpl. by apply IH, fireAppearance_complete.
Qed.

Lemma sameObject_eq a b : sameObject a b = true → a = b.
Proof. by destruct a, b. Qed.

(** A write that the store takes, or that is not made as the state keeps
    its object. *)
Lemma setSettings_stored next a :
  AppearanceStored a → AppearanceStored (setSettings next true a).
Proof.
  intros Hstore. unfold AppearanceStored. simpl.
  destruct (sameObject (settings a) next) eqn:Hsame; [|by left].
  by apply sameObject_eq in Hsame as <-.
Qed.

Lemma fireAppearance_stored e a :
  complete defaultAppearanceSettings (valueOf (settings a)) →
  changeStored e →
  AppearanceStored a → AppearanceStored (fireAppearance e a).
Proof.
  intros Hcomplete He Hstore. destruct e; simpl in *.
  - subst accepted. unfold AppearanceSettings.handleThemeChange.
    repeat case_decide; by apply setSettings_stored.
  - subst accepted. by apply setSettings_stored.
  - unfold resetSettings. destruct removed; [|done].
    unfold AppearanceStored. simpl.
    destruct (settings a), accepted; simpl; auto.
  - unfold AppearanceStored.
    destruct Hstore as [->|[-> _]]; simpl.
    + left. rewrite (spread_complete defaultAppearanceSettings) by done.
      by destruct accepted.
    + destruct accepted; simpl; auto.
Qed.

Lemma runAppearance_stored events a :
  complete defaultAppearanceSettings (valueOf (settings a)) →
  Forall changeStored events →
  AppearanceStored a → AppearanceStored (runAppearance events a).
Proof.
  revert a. induction events as [|e events IH]; intros a Hcomplete Hevents Ha; [done|].
  apply Forall_cons in Hevents as [He Hevents]. simpl.
  apply IH; [by apply fireAppearance_complete|done|by apply fireAppearance_stored].
Qed.

(** X13. The appearance, from the first start on (an empty store) and
    through any changes of theme and of single settings, resets and
    reloads: the settings always have every key of the defaults, whatever
    the store does; and as long as the store takes what the changes of
    theme and of settings write, loading the page anew brings back the
    settings as they are, also after a reset, which empties the store, and
    whether or not the writes of the resets and of the page loads are
    taken. *)
Theorem appearance_is_complete_and_survives_reload
    (first : bool) (events : list AppearanceEvent) :
  let a := runAppearance events (mountAppearance first None) in
  complete defaultAppearanceSettings (valueOf (settings a)) ∧
  (Forall changeStored events →
   ∀ accepted,
     valueOf (settings (fireAppearance (ReloadAppearance accepted) a))
       = valueOf (settings a)).
Proof.
  intros a.
  assert (complete defaultAppearanceSettings (valueOf (settings a))) as Hcomplete.
  { apply runAppearance_complete, mountAppearance_complete. }
  split; [done|]. intros Hevents accepted.
  assert (AppearanceStored a) as Hstore.
  { apply runAppearance_stored; [apply mountAppearance_complete|done|].
    unfold AppearanceStored. destruct first; simpl; auto. }
  simpl. destruct Hstore as [->|[-> ->]]; [|done].
  simpl. by apply spread_complete.
Qed.

(** The dark theme is chosen, a colour is changed, the defaults are reset
    (the write of the reset is refused) and the theme is changed to custom:
    a page load brings the settings back. *)
Lemma appearance_is_complete_and_survives_reload_example :
  let events := [ThemeChange "dark" true; SettingChange "accentColor" (JsString "#00ff00") true;
                 ResetSettings true false; ThemeChange "custom" true] in
  let a := runAppearance events (mountAppearance true None) in
  valueOf (settings a) !! "theme" = Some (JsString "custom") ∧
  valueOf (settings (fireAppearance (ReloadAppearance true) a)) = valueOf (settings a).
Proof.
  split; [vm_compute; reflexivity|].
  apply (appearance_is_complete_and_survives_reload true
           [ThemeChange "dark" true; SettingChange "accentColor" (JsString "#00ff00") true;
            ResetSettings true false; ThemeChange "custom" true]).
  repeat constructor.
Defined.

(** A change that the store refuses is lost with the page: the dark theme
    is chosen, the write fails, and the page comes back light. *)
Lemma refused_theme_is_lost_on_reload :
  let a := runAppearance [ThemeChange "dark" false] (mountAppearance true None) in
  valueOf (settings a) = darkThemeSettings ∧
  valueOf (settings (fireAppearance (ReloadAppearance true) a)) = defaultAppearanceSettings.
Proof. split; vm_compute; reflexivity. Qed.

(** *** The player settings *)

Lemma fireCustomization_complete e c :
  complete defaultPlayerSettings (playerSettings c) →
  complete defaultPlayerSettings (playerSettings (fireCustomization e c)).
Proof.
  intros Hcomplete. destruct e; simpl.
  - by apply complete_insert.
  - apply complete_defaults.
  - apply complete_load.
Qed.

Lemma runCustomization_complete events c :
  complete defaultPlayerSettings (playerSettings c) →
  complete defaultPlayerSettings (playerSettings (runCustomization events c)).
Proof.
  revert c. induction events as [|e events IH]; intros c Hc; [done|].
  simpl. by apply IH, fireCustomization_complete.
Qed.

Lemma fireCustomization_stored e c :
  complete defaultPlayerSettings (playerSettings c) →
  playerChangeStored e →
  CustomizationStored c → CustomizationStored (fireCustomization e c).
Proof.
  intros Hcomplete He Hstore. destruct e; simpl in *.
  - subst accepted. unfold CustomizationStored. simpl.
    by apply spread_complete, complete_insert.
  - subst accepted. unfold CustomizationStored. simpl.
    apply spread_complete, complete_defaults.
  - done.
Qed.

Lemma runCustomization_stored events c :
  complete defaultPlayerSettings (playerSettings c) →
  Forall playerChangeStored events →
  CustomizationStored c → CustomizationStored (runCustomization events c).
Proof.
  revert c. induction events as [|e events IH]; intros c Hcomplete Hevents Hc; [done|].
  apply Forall_cons in Hevents as [He Hevents]. simpl.
  apply IH; [by apply fireCustomization_complete|done|by apply fireCustomization_stored].
Qed.

(** X14. The player settings, from the first start on (an empty store) and
    through any changes, resets and reloads: they always have every key of
    the defaults, whatever the store does; and as long as the store takes
    what the changes and resets write, loading the page anew brings them
    back as they are. *)
Theorem playerSettings_are_complete_and_survive_reload
    (events : list CustomizationEvent) :
  let c := runCustomization events (mountCustomization None) in
  complete defaultPlayerSettings (playerSettings c) ∧
  (Forall playerChangeStored events →
   playerSettings (fireCustomization ReloadCustomization c) = playerSettings c).
Proof.
  intros c.
  assert (complete defaultPlayerSettings (playerSettings (mountCustomization None)))
    as Hstart by apply complete_defaults.
  split; [by apply runCustomization_complete|].
  intros Hevents. by apply runCustomization_stored.
Qed.

(** The title is made larger, the page is loaded anew, the shuffle button is
    hidden: a page load brings the settings back. *)
Lemma playerSettings_are_complete_and_survive_reload_example :
  let events := [PlayerSettingChange "titleFontSize" (JsNumber 30) true;
                 ReloadCustomization;
                 PlayerSettingChange "showShuffle" (JsBool false) true] in
  let c := runCustomization events (mountCustomization None) in
  playerSettings c !! "titleFontSize" = Some (JsNumber 30) ∧
  playerSettings c !! "showShuffle" = Some (JsBool false) ∧
  playerSettings (fireCustomization ReloadCustomization c) = playerSettings c.
Proof.
  split; [vm_compute; reflexivity|]. split; [vm_compute; reflexivity|].
  apply (playerSettings_are_complete_and_survive_reload
           [PlayerSettingChange "titleFontSize" (JsNumber 30) true;
            ReloadCustomization;
            PlayerSettingChange "showShuffle" (JsBool false) true]).
  repeat constructor.
Defined.

(** A change that the store refuses is in force, and lost with the page. *)
Lemma refused_player_setting_is_lost_on_reload :
  let c := runCustomization [PlayerSettingChange "titleFontSize" (JsNumber 30) false]
             (mountCustomization None) in
  playerSettings c !! "titleFontSize" = Some (JsNumber 30) ∧
  playerSettings (fireCustomization ReloadCustomization c) = defaultPlayerSettings.
Proof. split; vm_compute; reflexivity. Qed.

(** ** Walking a queue with next and previous *)

Section Walk.
Variable random : nat → Random01.
Variable songs : list Track.
Implicit Types (q : list Track) (p : Player) (i : nat).

(** In a list of distinct ids a track is found at its own index. *)
Lemma findIndex_distinct q i x c :
  NoDup (id <$> q) → q !! i = Some x → id x = id c →
  findIndex (λ s, id s = id c) q = Z.of_nat i.
Proof.
  intros Hdistinct Hx Hid. unfold findIndex.
  assert (list_find (λ s, id s = id c) q = Some (i, x)) as ->; [|done].
  apply list_find_Some. split_and!; [done..|].
  intros j y Hy Hlt Hsame.
  assert (j = i); [|lia].
  apply (NoDup_lookup (id <$> q) j i (id c) Hdistinct);
    rewrite list_lookup_fmap; [rewrite Hy|rewrite Hx]; simpl; congruence.
Qed.

Lemma distinct_ids q i j x y :
  NoDup (id <$> q) → q !! i = Some x → q !! j = Some y → i ≠ j → id x ≠ id y.
Proof.
  intros Hdistinct Hx Hy Hne Hid. apply Hne.
  apply (NoDup_lookup (id <$> q) i j (id x) Hdistinct);
    rewrite list_lookup_fmap; [rewrite Hx|rewrite Hy]; simpl; congruence.
Qed.

Lemma resolve_live t : live t → resolve songs t = Some t.
Proof. intros [f Hf]. unfold resolve. by rewrite Hf. Qed.

(** A play, with the queue that is walked, of the track at [j], another
    index than that of the current song. *)
Lemma play_walks q i j y p :
  NoDup (id <$> q) → Forall live q → Walking q i p →
  q !! j = Some y → i ≠ j →
  let p' := play random songs y (Some (currentQueue p)) p in
  Walking q j p' ∧ currentSong p' = Some y ∧ isPlaying p' = true.
Proof.
  intros Hdistinct Hlive (Hoff & Hq & c & x & Hc & Hx & Hid) Hy Hne.
  destruct (proj1 (Forall_forall _ _) Hlive y) as [f Hf];
    [by eapply list_elem_of_lookup_2|].
  assert (isCurrent p y = false) as Hother.
  { unfold isCurrent. rewrite Hc. apply bool_decide_eq_false.
    rewrite <- Hid. by apply (distinct_ids q i j). }
  destruct (play_other random songs p y (Some (currentQueue p)) y f)
    as (Hcur & Hplaying & _); [by apply resolve_live; eexists|done..|].
  destruct (play_queues random songs p y (Some (currentQueue p)))
    as (Hqueue & _ & Hshuffle & _).
  simpl in *. split_and!; [|done..].
  split_and!; [congruence|congruence|]. by exists y, y.
Qed.

Lemma next_walks q i p :
  NoDup (id <$> q) → Forall live q → Walking q i p → S i < length q →
  let p' := next random songs p in
  Walking q (S i) p' ∧ currentSong p' = q !! S i ∧ isPlaying p' = true.
Proof.
  intros Hdistinct Hlive Hwalk Hnext.
  pose proof Hwalk as (Hoff & Hq & c & x & Hc & Hx & Hid).
  destruct (lookup_lt_is_Some_2 q (S i) Hnext) as [y Hy].
  assert (activeQueue p = q) as Hactive by (unfold activeQueue; by rewrite Hoff).
  simpl. rewrite (next_advances random songs p c i y);
    [|done|rewrite Hactive; by apply (findIndex_distinct q i x)|by rewrite Hactive].
  rewrite Hy. apply (play_walks q i (S i)); [done..|lia].
Qed.

Lemma previous_walks q i p :
  NoDup (id <$> q) → Forall live q → Walking q (S i) p →
  let p' := previous random songs p in
  Walking q i p' ∧ currentSong p' = q !! i ∧ isPlaying p' = true.
Proof.
  intros Hdistinct Hlive Hwalk.
  pose proof Hwalk as (Hoff & Hq & c & x & Hc & Hx & Hid).
  pose proof (lookup_lt_Some _ _ _ Hx) as Hlen.
  destruct (lookup_lt_is_Some_2 q i) as [y Hy]; [lia|].
  assert (activeQueue p = q) as Hactive by (unfold activeQueue; by rewrite Hoff).
  simpl. rewrite (previous_selects random songs p c (S i) y);
    [|done|rewrite Hactive; by apply (findIndex_distinct q (S i) x)|].
  - rewrite Hy. apply (play_walks q (S i) i); [done..|lia].
  - rewrite Hactive.
    replace (Z.of_nat (S i) - 1 + Z.of_nat (length q))%Z
      with (Z.of_nat i + 1 * Z.of_nat (length q))%Z by lia.
    rewrite Z.rem_add by lia. rewrite Z.rem_small by lia.
    by rewrite at_index_of_nat.
Qed.

Lemma nexts_walk q i k p :
  NoDup (id <$> q) → Forall live q → Walking q i p → i + k < length q →
  Walking q (i + k) (Nat.iter k (next random songs) p).
Proof.
  intros Hdistinct Hlive Hwalk. induction k as [|k IH]; intros Hlen.
  - by rewrite Nat.add_0_r.
  - simpl. replace (i + S k) with (S (i + k)) by lia.
    apply next_walks; [done..|apply IH; lia|lia].
Qed.
End Walk.

(** X15. Shuffle is off, the queue has distinct ids and every track its
    file, and the current song is that of index [i].  Then [k] times next,
    as long as the queue has an index [i + k], lead to the track at that
    index, playing, whatever the repeat mode: next goes through the queue in
    its order and leaves none out. *)
Theorem next_goes_through_the_queue
    (random : nat → Random01) (songs q : list Track) (p : Player) (i k : nat) :
  NoDup (id <$> q) →
  Forall live q →
  Walking q i p →
  0 < k →
  i + k < length q →
  let p' := Nat.iter k (next random songs) p in
  currentSong p' = q !! (i + k) ∧
  isPlaying p' = true ∧
  currentQueue p' = q.
Proof.
  intros Hdistinct Hlive Hwalk Hk Hlen. destruct k as [|k]; [lia|]. simpl.
  replace (i + S k) with (S (i + k)) by lia.
  destruct (next_walks random songs q (i + k)
              (Nat.iter k (next random songs) p))
    as ((_ & Hq & _) & Hcur & Hplaying); [done..|apply nexts_walk; [done..|lia]|lia|].
  done.
Qed.

(** [songA] plays from the queue [A, B, C]; next is pressed twice. *)
Lemma next_goes_through_the_queue_example :
  let p' := Nat.iter 2 (next sampleRandom []) (playingA [songA; songB; songC] RepeatOff) in
  currentSong p' = [songA; songB; songC] !! (0 + 2) ∧
  isPlaying p' = true ∧
  currentQueue p' = [songA; songB; songC].
Proof.
  apply (next_goes_through_the_queue sampleRandom [] [songA; songB; songC]
           (playingA [songA; songB; songC] RepeatOff) 0 2).
  - by apply (bool_decide_unpack _).
  - repeat constructor; by eexists.
  - split_and!; [done..|]. by exists songA, songA.
  - lia.
  - simpl. lia.
Defined.

(** X16. In the same setting, next and then previous lead back to the track
    one was at, and so do previous and then next: between the ends of the
    queue the two undo each other. *)
Theorem next_and_previous_undo_each_other
    (random : nat → Random01) (songs q : list Track) (p : Player) (i : nat) :
  NoDup (id <$> q) →
  Forall live q →
  Walking q i p →
  (S i < length q →
   currentSong (previous random songs (next random songs p)) = q !! i) ∧
  (0 < i →
   currentSong (next random songs (previous random songs p)) = q !! i).
Proof.
  intros Hdistinct Hlive Hwalk. split.
  - intros Hlen.
    destruct (next_walks random songs q i p) as (Hnext & _); [done..|].
    by destruct (previous_walks random songs q i (next random songs p))
      as (_ & Hcur & _).
  - intros Hi. destruct i as [|i]; [lia|].
    pose proof Hwalk as (_ & _ & _ & x & _ & Hx%lookup_lt_Some & _).
    destruct (previous_walks random songs q i p) as (Hprevious & _); [done..|].
    by destruct (next_walks random songs q i (previous random songs p))
      as (_ & Hcur & _).
Qed.

(** [songB] plays from the queue [A, B, C]. *)
Lemma next_and_previous_undo_each_other_example :
  let p := with_currentSong (Some songB) (playingA [songA; songB; songC] RepeatOff) in
  (2 < length [songA; songB; songC] →
   currentSong (previous sampleRandom [] (next sampleRandom [] p))
     = [songA; songB; songC] !! 1) ∧
  (0 < 1 →
   currentSong (next sampleRandom [] (previous sampleRandom [] p))
     = [songA; songB; songC] !! 1).
Proof.
  apply (next_and_previous_undo_each_other sampleRandom [] [songA; songB; songC]
           (with_currentSong (Some songB) (playingA [songA; songB; songC] RepeatOff)) 1).
  - by apply (bool_decide_unpack _).
  - repeat constructor; by eexists.
  - split_and!; [done..|]. by exists songB, songB.
Defined.

(** ** Next under shuffle *)

Section ShuffleWalk.
Variable random : nat → Random01.
Variable songs : list Track.
Implicit Types (q : list Track) (p : Player) (c : Track).

(** A queue of two tracks or more, of distinct ids, has a track of another
    id than [c]'s. *)
Lemma another_track q c :
  NoDup (id <$> q) → 2 ≤ length q → ∃ y, y ∈ q ∧ id y ≠ id c.
Proof.
  destruct q as [|a [|b q]]; simpl; try lia. intros Hdistinct _.
  apply NoDup_cons in Hdistinct as [Hab _].
  destruct (decide (id a = id c)) as [Hsame|Hother].
  - exists b. split; [set_solver|]. intros Hb. apply Hab.
    rewrite Hsame, <- Hb. by left.
  - exists a. split; [set_solver|done].
Qed.

(** The track behind the anchor of a shuffled queue: one of the queue, of
    another id than the anchor's. *)
Lemma shuffled_second calls q c :
  NoDup (id <$> q) → 2 ≤ length q →
  ∃ y, buildShuffledQueue random calls q c !! 1 = Some y ∧ y ∈ q ∧ id y ≠ id c.
Proof.
  intros Hdistinct Hlen. unfold buildShuffledQueue.
  set (others := filter (λ s, id s ≠ id c) q).
  destruct (another_track q c Hdistinct Hlen) as (z & Hz & Hne).
  assert (z ∈ others) as Hin by (by apply list_elem_of_filter).
  destruct (shuffleArray random calls others) as [|y rest] eqn:Hshuffle.
  - pose proof (shuffleArray_length random calls others) as Hsame.
    rewrite Hshuffle in Hsame. destruct others; [by apply elem_of_nil in Hin|done].
  - exists y. split; [done|].
    assert (y ∈ others) as [Hy ?]%list_elem_of_filter; [|done].
    rewrite <- (shuffleArray_Permutation random calls others), Hshuffle. by left.
Qed.

Lemma next_shuffles q p :
  NoDup (id <$> q) → Forall live q → 2 ≤ length q →
  Shuffling random q p →
  let p' := next random songs p in
  Shuffling random q p' ∧ isPlaying p' = true ∧ currentSong p' ≠ currentSong p.
Proof.
  intros Hdistinct Hlive Hlen (Hon & Hq & c & calls & Hc & Hin & Hshuffled).
  subst q.
  destruct (shuffled_second calls (currentQueue p) c Hdistinct Hlen)
    as (y & Hy & Hyq & Hne).
  assert (activeQueue p = buildShuffledQueue random calls (currentQueue p) c) as Hactive
    by (unfold activeQueue; by rewrite Hon).
  assert (findIndex (λ s, id s = id c) (activeQueue p) = Z.of_nat 0) as Hindex.
  { rewrite Hactive. unfold findIndex, buildShuffledQueue. simpl.
    by rewrite decide_True. }
  simpl. rewrite (next_advances random songs p c 0 y); [|done|done|by rewrite Hactive].
  destruct (proj1 (Forall_forall _ _) Hlive y Hyq) as [f Hf].
  assert (isCurrent p y = false) as Hother.
  { unfold isCurrent. rewrite Hc. apply bool_decide_eq_false. congruence. }
  destruct (play_other random songs p y (Some (currentQueue p)) y f)
    as (Hcur & Hplaying & _); [by apply resolve_live; eexists|done..|].
  destruct (play_queues random songs p y (Some (currentQueue p)))
    as (Hqueue & Hsq & Hshuffle & _).
  simpl in *. split_and!; [|done|].
  - split_and!; [congruence|congruence|].
    exists y, (randomCalls p). by rewrite Hsq, Hon.
  - rewrite Hcur, Hc. intros [= ->]. done.
Qed.

Lemma nexts_shuffle q k p :
  NoDup (id <$> q) → Forall live q → 2 ≤ length q →
  Shuffling random q p →
  Shuffling random q (Nat.iter k (next random songs) p).
Proof.
  intros Hdistinct Hlive Hlen Hp. induction k as [|k IH]; [done|].
  simpl. by apply next_shuffles.
Qed.
End ShuffleWalk.

(** X17. Under shuffle, in a queue of two tracks or more, of distinct ids
    and each with its file, next never comes to an end of the queue: after
    any number of nexts, one more starts another track of the queue than
    the current one, and the session plays, whatever the repeat mode.  (Each
    play shuffles the queue anew around the track it starts, so the current
    song is always at the head.) *)
Theorem next_under_shuffle_never_ends
    (random : nat → Random01) (songs q : list Track) (p : Player) (k : nat) :
  NoDup (id <$> q) →
  Forall live q →
  2 ≤ length q →
  Shuffling random q p →
  let before := Nat.iter k (next random songs) p in
  let after := next random songs before in
  isPlaying after = true ∧
  (∃ x, currentSong after = Some x ∧ x ∈ q) ∧
  currentSong after ≠ currentSong before.
Proof.
  intros Hdistinct Hlive Hlen Hp before after.
  pose proof (nexts_shuffle random songs q k p Hdistinct Hlive Hlen Hp) as Hbefore.
  destruct (next_shuffles random songs q before Hdistinct Hlive Hlen Hbefore)
    as ((_ & _ & x & _ & Hx & Hin & _) & Hplaying & Hother).
  split_and!; [done| |done]. by exists x.
Qed.

(** [songA] plays from the queue [A, B, C], repeat is off and shuffle is
    switched on; next is pressed five times. *)
Lemma next_under_shuffle_never_ends_example :
  let p := shuffle sampleRandom (playingA [songA; songB; songC] RepeatOff) in
  let before := Nat.iter 4 (next sampleRandom []) p in
  let after := next sampleRandom [] before in
  isPlaying after = true ∧
  (∃ x, currentSong after = Some x ∧ x ∈ [songA; songB; songC]) ∧
  currentSong after ≠ currentSong before.
Proof.
  apply (next_under_shuffle_never_ends sampleRandom [] [songA; songB; songC]
           (shuffle sampleRandom (playingA [songA; songB; songC] RepeatOff)) 4).
  - by apply (bool_decide_unpack _).
  - repeat constructor; by eexists.
  - simpl. lia.
  - split_and!; [done..|]. exists songA, 0. split_and!; [done|set_solver|done].
Defined.

(** ** After a reload, until a song is imported *)

Section AfterReload.
Variable random : nat → Random01.
Implicit Types (app : App) (e : Event).

Lemma reload_Silent app :
  Forall (λ t, file t = None) (stored app) → Silent (fire random Reload app).
Proof. intros Hstored. by split_and!. Qed.

(** A click in Recently Played while nothing can be played. *)
Lemma click_Silent app index t :
  Silent app →
  recentlyPlayed (player app) !! index = Some t →
  let p := player app in
  let p' := player (fire random (ClickRecent index) app) in
  library (fire random (ClickRecent index) app) = [] ∧
  stored (fire random (ClickRecent index) app) = stored app ∧
  recentlyPlayed p' = evict t (recentlyPlayed p) ∧
  audio p' = audio p ∧
  currentSong p' = None ∧
  isPlaying p' = false ∧
  alerts p' = S (alerts p).
Proof.
  intros (Hlib & Hcur & Hplaying & Hrecent & Hstored) Ht. simpl. rewrite Ht. simpl.
  assert (resolve (library app) t = None) as Hstale.
  { apply resolve_stale. split.
    - by apply (Forall_lookup_1 _ _ _ _ Hrecent Ht).
    - rewrite Hlib. apply not_elem_of_nil. }
  destruct (play_stale_fields random (library app) (player app) t
              (Some (recentlyPlayed (player app))) Hstale)
    as (Hh & Ha & Hc & Hp & Hn).
  simpl in *. split_and!; congruence.
Qed.

Lemma fire_Silent e app : ¬ isImport e → Silent app → Silent (fire random e app).
Proof.
  intros Hevent Hsilent.
  pose proof Hsilent as (Hlib & Hcur & Hplaying & Hrecent & Hstored).
  destruct e; try done; simpl.
  - by rewrite Hlib, lookup_nil.
  - destruct (recentlyPlayed (player app) !! index) as [t|] eqn:Ht; [|done].
    destruct (click_Silent app index t Hsilent Ht)
      as (Hl & Hs & Hh & _ & Hc & Hp & _).
    simpl in Hl, Hs, Hh, Hc, Hp. rewrite Ht in Hl, Hs, Hh, Hc, Hp.
    split_and!; [done..| |by rewrite Hs].
    rewrite Hh. by apply evict_Forall.
  - unfold playPause. unfold_steps. rewrite Hcur. by split_and!.
  - unfold_steps. rewrite Hcur. by split_and!.
  - unfold_steps. rewrite Hcur. by split_and!.
  - unfold_steps. rewrite Hcur.
    by destruct (isShuffleActive (player app)); split_and!.
  - unfold cycleRepeat, dispatch, toggleRepeat.
    by destruct (at_index _ _); split_and!.
  - unfold handleEnded, playNext. simpl. rewrite Hcur.
    by destruct (repeatMode (player app)); split_and!.
  - unfold playPause. unfold_steps. rewrite Hcur. by split_and!.
  - unfold playNext. simpl. rewrite Hcur. by split_and!.
  - unfold playPrevious. simpl. rewrite Hcur. by split_and!.
  - split_and!; [done..|]. apply Forall_fmap. by apply Forall_true.
Qed.

Lemma run_Silent events app :
  Forall (λ e, ¬ isImport e) events → Silent app → Silent (run random events app).
Proof.
  revert app. induction events as [|e events IH]; intros app Hevents Happ; [done|].
  apply Forall_cons in Hevents as [He Hevents].
  simpl. by apply IH, fire_Silent.
Qed.
End AfterReload.

(** X18. After a reload and as long as no song is imported again, nothing
    can be played: the library is empty and no song is current, whatever is
    clicked or pressed; and a click on an entry of Recently Played shows the
    alert, removes the entry from the history, and sends the audio element
    nothing. *)
Theorem nothing_plays_after_a_reload_until_an_import
    (random : nat → Random01) (before after : list Event) (index : nat) (t : Track) :
  Forall (λ e, ¬ isImport e) after →
  let app := run random (before ++ Reload :: after) (startApp []) in
  let clicked := fire random (ClickRecent index) app in
  library app = [] ∧
  currentSong (player app) = None ∧
  isPlaying (player app) = false ∧
  (recentlyPlayed (player app) !! index = Some t →
   alerts (player clicked) = S (alerts (player app)) ∧
   recentlyPlayed (player clicked) = evict t (recentlyPlayed (player app)) ∧
   audio (player clicked) = audio (player app) ∧
   currentSong (player clicked) = None).
Proof.
  intros Hafter app clicked.
  assert (Silent app) as Hsilent.
  { unfold app, run. rewrite foldl_app. simpl.
    apply run_Silent; [done|]. apply (reload_Silent random).
    apply (run_AppOk random before (startApp [])). by apply startApp_AppOk. }
  pose proof Hsilent as (Hlib & Hcur & Hplaying & _).
  split_and!; [done..|]. intros Ht.
  destruct (click_Silent random app index t Hsilent Ht) as (_ & _ & Hh & Ha & Hc & _ & Hn).
  done.
Qed.

(** A song is imported and played, the history is stored, and the page is
    loaded anew; the entry of the song is clicked. *)
Lemma nothing_plays_after_a_reload_until_an_import_example :
  let app := run sampleRandom
               ([SaveImport 9 "S" "w" (Blob 9); ClickSong 0; StoreHistory]
                  ++ Reload :: [PressPlayPause])
               (startApp []) in
  let clicked := fire sampleRandom (ClickRecent 0) app in
  library app = [] ∧
  currentSong (player app) = None ∧
  isPlaying (player app) = false ∧
  (recentlyPlayed (player app) !! 0 = Some staleS →
   alerts (player clicked) = S (alerts (player app)) ∧
   recentlyPlayed (player clicked) = evict staleS (recentlyPlayed (player app)) ∧
   audio (player clicked) = audio (player app) ∧
   currentSong (player clicked) = None).
Proof.
  apply (nothing_plays_after_a_reload_until_an_import sampleRandom
           [SaveImport 9 "S" "w" (Blob 9); ClickSong 0; StoreHistory]
           [PressPlayPause] 0 staleS).
  apply Forall_singleton. simpl. tauto.
Defined.

(** ** The audio element holds the current song *)

Lemma lastSource_snoc (trace : list AudioCommand) (c : AudioCommand) :
  lastSource (trace ++ [c]) =
    match sourceOf c with
    | Some f => Some f
    | None => lastSource trace
    end.
Proof.
  unfold lastSource. rewrite omap_app. simpl.
  destruct (sourceOf c); [apply last_snoc|by rewrite app_nil_r].
Qed.

Section Tune.
Variable random : nat → Random01.
Implicit Types (songs oldSongs : list Track) (p r : Player) (t : Track).

Lemma togglePlayPause_InTune r p :
  currentSong r = currentSong p → InTune p → InTune (pending (togglePlayPause r p)).
Proof.
  intros Hcur [Hsource Hplaying]. unfold InTune. unfold_steps. rewrite Hcur.
  destruct (currentSong p) as [c|] eqn:Hc; [|by rewrite Hc].
  destruct (isPlaying r); simpl; rewrite lastSource_snoc; simpl;
    rewrite Hc; (split; [done|]); by eexists.
Qed.

Lemma playSong_InTune oldSongs r t queue p :
  currentSong r = currentSong p →
  (∀ song, resolve oldSongs t = Some song → is_Some (file song)) →
  InTune p →
  InTune (pending (playSong random oldSongs r t queue p)).
Proof.
  intros Hcur Hfile [Hsource Hplaying]. unfold InTune. unfold_steps.
  destruct (resolve oldSongs t) as [song|] eqn:Hsong.
  - destruct (Hfile song eq_refl) as [f Hf]. rewrite Hf.
    unfold isCurrent. rewrite Hcur.
    destruct (currentSong p) as [c|] eqn:Hc;
      [destruct (bool_decide (id c = id song))|];
      destruct queue as [q|], (isShuffleActive r), (isPlaying r); simpl;
      rewrite ?lastSource_snoc; simpl; rewrite ?lastSource_snoc; simpl;
      rewrite ?Hc, ?Hf; split; try done; by eexists.
  - by destruct queue as [q|], (isShuffleActive r).
Qed.

Lemma playAt_InTune songs oldSongs r index p :
  oldSongs ⊆ songs → WellFormed songs r →
  currentSong r = currentSong p →
  InTune p → InTune (pending (playAt random oldSongs r index p)).
Proof.
  intros Hsub Hr Hcur Hp. unfold playAt.
  destruct (at_index (activeQueue r) index) as [x|] eqn:Hx; [|done].
  apply playSong_InTune; [done| |done].
  intros song. apply (resolve_has_file songs oldSongs r); [done..|].
  unfold at_index in Hx. case_decide; [|done].
  apply list_elem_of_lookup_2 in Hx. unfold activeQueue in Hx.
  destruct (isShuffleActive r);
    [by apply (proj1 (Forall_forall _ _) (wf_shuffled _ _ Hr))
    |by apply (proj1 (Forall_forall _ _) (wf_queue _ _ Hr))].
Qed.

Lemma playNext_InTune songs oldSongs r p :
  oldSongs ⊆ songs → WellFormed songs r →
  currentSong r = currentSong p →
  InTune p → InTune (pending (playNext random oldSongs r p)).
Proof.
  intros Hsub Hr Hcur Hp. unfold playNext.
  destruct (currentSong r) eqn:Hcur'; [|done]. rewrite <- Hcur' in Hcur.
  repeat case_decide; try done; try by apply (playAt_InTune songs).
  destruct (repeatMode r); try by apply (playAt_InTune songs).
  all: by destruct Hp.
Qed.

Lemma playPrevious_InTune songs oldSongs r p :
  oldSongs ⊆ songs → WellFormed songs r →
  currentSong r = currentSong p →
  InTune p → InTune (pending (playPrevious random oldSongs r p)).
Proof.
  intros Hsub Hr Hcur Hp. unfold playPrevious.
  destruct (currentSong r) eqn:Hcur'; [|done]. rewrite <- Hcur' in Hcur.
  repeat case_decide; try done; by apply (playAt_InTune songs).
Qed.

Lemma fire_InTune e app :
  WellFormed (library app) (player app) →
  InTune (player app) →
  InTune (player (fire random e app)).
Proof.
  intros Hwf Htune. destruct e; simpl; try done.
  - destruct (library app !! index) as [song|] eqn:Hsong; [|done]. simpl.
    apply playSong_InTune; [done| |done]. intros s.
    apply (resolve_has_file (library app) (library app) (player app)); [done..|].
    apply known_member. by eapply list_elem_of_lookup_2.
  - destruct (recentlyPlayed (player app) !! index) as [song|] eqn:Hsong; [|done].
    simpl. apply playSong_InTune; [done| |done]. intros s.
    apply (resolve_has_file (library app) (library app) (player app)); [done..|].
    by apply (Forall_lookup_1 _ _ _ _ (wf_recent _ _ Hwf) Hsong).
  - by apply togglePlayPause_InTune.
  - by apply (playNext_InTune (library app)).
  - by apply (playPrevious_InTune (library app)).
  - destruct Htune as [Hsource Hplaying]. unfold InTune. unfold_steps.
    destruct (isShuffleActive (player app)), (currentSong (player app)) eqn:Hc;
      simpl; by rewrite ?Hc.
  - unfold cycleRepeat, dispatch, toggleRepeat. by destruct (at_index _ _).
  - destruct Htune as [Hsource Hplaying]. unfold InTune. unfold_steps. simpl.
    by rewrite lastSource_snoc.
  - unfold handleEnded. simpl.
    destruct (repeatMode (player app)).
    1,2: apply (playNext_InTune (library app));
      [apply subseteq_take|by apply with_isPlaying_WellFormed|done..].
    destruct Htune as [Hsource Hplaying]. unfold InTune. unfold_steps. simpl.
    by rewrite !lastSource_snoc.
  - by apply togglePlayPause_InTune.
  - apply (playNext_InTune (library app));
      [apply subseteq_take|by apply with_repeatMode_WellFormed|done..].
  - apply (playPrevious_InTune (library app)); [apply subseteq_take|done..].
Qed.

Lemma run_InTune events app :
  AppOk app → InTune (player app) → InTune (player (run random events app)).
Proof.
  revert app. induction events as [|e events IH]; intros app Hok Htune; [done|].
  simpl. apply IH; [by apply fire_AppOk|].
  apply fire_InTune; [apply Hok|done].
Qed.
End Tune.

(** X19. From the first start on and whatever the events, the file that
    the audio element was given last is the file of the current song (none
    before a song is current), and a session that plays has a current
    song: what is heard is what is shown. *)
Theorem audio_element_holds_the_current_song
    (random : nat → Random01) (events : list Event) :
  let p := player (run random events (startApp [])) in
  lastSource (audio p) = currentSong p ≫= file ∧
  (isPlaying p = true → is_Some (currentSong p)).
Proof.
  apply (run_InTune random events (startApp [])); [by apply startApp_AppOk|].
  by split.
Qed.

(** ** What a page load never gives up *)

Section Kept.
Variable random : nat → Random01.
Implicit Types (songs : list Track) (p r : Player) (t : Track) (app : App).

Lemma playSong_current_kept songs r t queue p :
  is_Some (currentSong p) →
  is_Some (currentSong (pending (playSong random songs r t queue p))).
Proof.
  intros Hcur. unfold_steps.
  destruct (resolve songs t) as [song|];
    [destruct (isCurrent r song), (currentSong r), (isPlaying r), (file song)|];
    destruct queue as [q|], (isShuffleActive r); simpl; try done; by eexists.
Qed.

Lemma playAt_current_kept songs r index p :
  is_Some (currentSong p) →
  is_Some (currentSong (pending (playAt random songs r index p))).
Proof.
  intros Hcur. unfold playAt. destruct (at_index (activeQueue r) index); [|done].
  by apply playSong_current_kept.
Qed.

Lemma playNext_current_kept songs r p :
  is_Some (currentSong p) →
  is_Some (currentSong (pending (playNext random songs r p))).
Proof.
  intros Hcur. unfold playNext. destruct (currentSong r); [|done].
  repeat case_decide; try done; try by apply playAt_current_kept.
  destruct (repeatMode r); try done. by apply playAt_current_kept.
Qed.

Lemma playPrevious_current_kept songs r p :
  is_Some (currentSong p) →
  is_Some (currentSong (pending (playPrevious random songs r p))).
Proof.
  intros Hcur. unfold playPrevious. destruct (currentSong r); [|done].
  repeat case_decide; try done; by apply playAt_current_kept.
Qed.

Lemma togglePlayPause_current_kept r p :
  is_Some (currentSong p) →
  is_Some (currentSong (pending (togglePlayPause r p))).
Proof. intros Hcur. unfold_steps. by destruct (currentSong r), (isPlaying r). Qed.

Lemma fire_kept e app :
  e ≠ Reload →
  library app `prefix_of` library (fire random e app) ∧
  (is_Some (currentSong (player app)) →
   is_Some (currentSong (player (fire random e app)))).
Proof.
  intros Hevent. destruct e; simpl; try done.
  - split; [by apply prefix_app_r|done].
  - destruct (library app !! index); [|done].
    split; [done|]. apply playSong_current_kept.
  - destruct (recentlyPlayed (player app) !! index); [|done].
    split; [done|]. apply playSong_current_kept.
  - split; [done|]. apply togglePlayPause_current_kept.
  - split; [done|]. apply playNext_current_kept.
  - split; [done|]. apply playPrevious_current_kept.
  - split; [done|]. unfold_steps.
    destruct (isShuffleActive (player app)), (currentSong (player app)) eqn:Hc;
      simpl; by rewrite ?Hc.
  - split; [done|]. unfold cycleRepeat, dispatch, toggleRepeat.
    by destruct (at_index _ _).
  - split; [done|]. unfold handleEnded. simpl.
    destruct (repeatMode (player app)); try done; apply playNext_current_kept.
  - split; [done|]. apply togglePlayPause_current_kept.
  - split; [done|]. apply playNext_current_kept.
  - split; [done|]. apply playPrevious_current_kept.
Qed.
End Kept.

(** X20. As long as the page is not loaded anew, the library is only added
    to at its end (no song is removed, none changes its place) and a
    current song, once there is one, is never given up: the session has no
    way back to the state without a song. *)
Theorem a_page_load_keeps_library_and_current_song
    (random : nat → Random01) (events : list Event) (app : App) :
  Forall (λ e, e ≠ Reload) events →
  library app `prefix_of` library (run random events app) ∧
  (is_Some (currentSong (player app)) →
   is_Some (currentSong (player (run random events app)))).
Proof.
  revert app. induction events as [|e events IH]; intros app Hevents; [done|].
  apply Forall_cons in Hevents as [He Hevents].
  destruct (fire_kept random e app He) as [Hlib Hcur].
  destruct (IH (fire random e app) Hevents) as [Hlib' Hcur'].
  simpl. split; [by etrans|]. intros Hsome. by apply Hcur', Hcur.
Qed.

(** [songA] is imported and played, shuffle is switched on. *)
Lemma a_page_load_keeps_library_and_current_song_example :
  library (startApp []) `prefix_of` library (run sampleRandom sampleStart (startApp [])) ∧
  (is_Some (currentSong (player (startApp []))) →
   is_Some (currentSong (player (run sampleRandom sampleStart (startApp []))))).
Proof.
  apply (a_page_load_keeps_library_and_current_song sampleRandom sampleStart
           (startApp [])).
  by repeat constructor.
Defined.

(** ** The end of the only track of a queue, under repeat all *)

(** X21. The active queue holds one track, with its file and of the current
    song's id, and the repeat mode is all.  When the track ends, it is not
    started again: [playNext] wraps to index 0, [playSong] finds the current
    song there and toggles, on the value of [isPlaying] that the listener
    has closed over.  With [true] the session pauses; with [false] it calls
    [play()] and [isPlaying] turns true. *)
Theorem the_only_track_ends_under_repeat_all
    (random : nat → Random01) (app : App) (c x : Track)
    (staleIsPlaying : bool) (staleSongs : nat) :
  let p := player app in
  currentSong p = Some c →
  activeQueue p = [x] →
  id x = id c →
  live x →
  repeatMode p = RepeatAll →
  let p' := player (fire random (AudioEnded staleIsPlaying staleSongs) app) in
  isPlaying p' = negb staleIsPlaying ∧
  audio p' = audio p ++ [if staleIsPlaying then Pause else Play] ∧
  currentSong p' = Some c.
Proof.
  intros p Hc Hactive Hid [f Hf] Hmode. simpl. fold p.
  set (r := with_isPlaying staleIsPlaying p).
  set (songs := take staleSongs (library app)).
  assert (activeQueue r = [x]) as Hr by done.
  assert (findIndex (λ s, id s = id c) (activeQueue r) = Z.of_nat 0) as Hindex.
  { rewrite Hr. unfold findIndex. simpl. by rewrite decide_True. }
  unfold handleEnded. replace (repeatMode r) with RepeatAll by done.
  rewrite (playNext_found random songs r c 0 Hc Hindex).
  rewrite Hr, decide_False by (simpl; lia).
  replace (repeatMode r) with RepeatAll by done.
  unfold playAt. rewrite Hr. simpl.
  unfold_steps. unfold resolve. rewrite Hf.
  unfold isCurrent. replace (currentSong r) with (Some c) by done.
  rewrite bool_decide_true by done.
  replace (isPlaying r) with staleIsPlaying by done.
  replace (isShuffleActive r) with (isShuffleActive p) by done.
  by destruct (isShuffleActive p), staleIsPlaying.
Qed.

(** [songA] plays from the queue [A] under repeat all; the listener has
    closed over [isPlaying = true]. *)
Lemma the_only_track_ends_under_repeat_all_example :
  let app := {| library := [songA]; player := playingA [songA] RepeatAll; stored := [] |} in
  let p := player app in
  let p' := player (fire sampleRandom (AudioEnded true 1) app) in
  isPlaying p' = negb true ∧
  audio p' = audio p ++ [if true then Pause else Play] ∧
  currentSong p' = Some songA.
Proof.
  apply (the_only_track_ends_under_repeat_all sampleRandom
           {| library := [songA]; player := playingA [songA] RepeatAll; stored := [] |}
           songA songA true 1); try done.
  by eexists.
Defined.

(** ** Switching shuffle on *)

(** Around a track of a queue of distinct ids, the shuffled queue has the
    ids of the queue. *)
Lemma buildShuffledQueue_ids
    (random : nat → Random01) (calls : nat) (q : list Track) (c : Track) :
  NoDup (id <$> q) → id c ∈ id <$> q →
  id <$> buildShuffledQueue random calls q c ≡ₚ id <$> q.
Proof.
  intros Hdistinct Hin. unfold buildShuffledQueue.
  rewrite fmap_cons, shuffleArray_Permutation.
  induction q as [|s q IH]; [by apply elem_of_nil in Hin|].
  rewrite fmap_cons in Hdistinct, Hin.
  apply NoDup_cons in Hdistinct as [Hs Hdistinct].
  rewrite filter_cons. destruct (decide (id s ≠ id c)) as [Hne|Hsame].
  - apply elem_of_cons in Hin as [Heq|Hin]; [congruence|].
    rewrite !fmap_cons, Permutation_swap. by rewrite IH.
  - assert (id s = id c) as Heq by (destruct (decide (id s = id c)); [done|by destruct Hsame]).
    rewrite fmap_cons, <- Heq. rewrite without_absent; [done|by rewrite <- Heq in *].
Qed.

(** X22. Shuffle is switched on while a song of the queue is current and
    the queue has distinct ids: the queue that next and previous then go by
    holds the ids of the plain queue, each once, with the current song's
    first; the plain queue is as it was.  Shuffling loses no track and
    doubles none. *)
Theorem shuffle_keeps_every_track
    (random : nat → Random01) (p : Player) (c : Track) :
  isShuffleActive p = false →
  currentSong p = Some c →
  NoDup (id <$> currentQueue p) →
  id c ∈ id <$> currentQueue p →
  let p' := shuffle random p in
  id <$> activeQueue p' ≡ₚ id <$> currentQueue p ∧
  id <$> head (activeQueue p') = Some (id c) ∧
  currentQueue p' = currentQueue p.
Proof.
  intros Hoff Hc Hdistinct Hin p'.
  assert (activeQueue p' = buildShuffledQueue random (randomCalls p) (currentQueue p) c)
    as Hactive.
  { unfold p', activeQueue. unfold_steps. rewrite Hoff, Hc. done. }
  rewrite Hactive. split_and!.
  - by apply buildShuffledQueue_ids.
  - done.
  - unfold p'. unfold_steps. by rewrite Hoff, Hc.
Qed.

(** [songB] plays from the queue [A, B, C]. *)
Lemma shuffle_keeps_every_track_example :
  let p := with_currentSong (Some songB) (playingA [songA; songB; songC] RepeatOff) in
  let p' := shuffle sampleRandom p in
  id <$> activeQueue p' ≡ₚ id <$> currentQueue p ∧
  id <$> head (activeQueue p') = Some (id songB) ∧
  currentQueue p' = currentQueue p.
Proof.
  apply (shuffle_keeps_every_track sampleRandom
           (with_currentSong (Some songB) (playingA [songA; songB; songC] RepeatOff))
           songB).
  - reflexivity.
  - reflexivity.
  - by apply (bool_decide_unpack _).
  - by apply (bool_decide_unpack _).
Defined.

(** ** A full history *)

(** X23. The history holds 50 entries and none of the id of the song that a
    play starts (a track that resolves to a song with its file): the song is
    put first, the 49 entries that were first follow in their order, and the
    oldest entry is dropped. *)
Theorem play_drops_the_oldest_of_a_full_history
    (random : nat → Random01) (songs : list Track) (st : Player)
    (songToPlay : Track) (queue : option (list Track)) (song : Track) :
  resolve songs songToPlay = Some song →
  live song →
  length (recentlyPlayed st) = 50 →
  id song ∉ id <$> recentlyPlayed st →
  recentlyPlayed (play random songs songToPlay queue st) =
    song :: take 49 (recentlyPlayed st).
Proof.
  intros Hsong Hlive Hfull Hnew.
  rewrite (play_history random songs st songToPlay queue song Hsong Hlive).
  unfold promote. by rewrite without_absent.
Qed.

(** Fifty songs were played, the last of them first in the history; then
    [songA] is played. *)
Lemma play_drops_the_oldest_of_a_full_history_example :
  let entry (n : nat) :=
    {| id := N.of_nat (100 + n); title := "T"; artist := "t";
       albumArtUrl := "https://placehold.co/64x64/png"; file := Some (Blob 0) |} in
  let st := with_recentlyPlayed (entry <$> seq 0 50) (initialPlayer []) in
  recentlyPlayed (play sampleRandom [songA] songA (Some [songA]) st) =
    songA :: take 49 (recentlyPlayed st).
Proof.
  intros entry st.
  apply (play_drops_the_oldest_of_a_full_history sampleRandom [songA] st songA
           (Some [songA]) songA).
  - reflexivity.
  - by eexists.
  - reflexivity.
  - by apply (bool_decide_unpack _).
Defined.

(** ** The handlers as closures of an earlier render *)

(** The handlers run as closures: [r] is the render that the closure was
    made in (what it reads), [p] the state that its updates land on. *)
Section Closures.
Variable random : nat → Random01.
Implicit Types (oldSongs : list Track) (r p : Player) (t song : Track)
  (queue : option (list Track)).

(** The queue block of [playSong], whichever way the call ends. *)
Lemma playSong_queues oldSongs r t queue p :
  let p' := pending (playSong random oldSongs r t queue p) in
  currentQueue p' = default (currentQueue p) queue ∧
  shuffledQueue p' =
    match queue with
    | Some q =>
        if isShuffleActive r
        then buildShuffledQueue random (randomCalls p) q t
        else shuffledQueue p
    | None => shuffledQueue p
    end ∧
  randomCalls p' =
    match queue with
    | Some q =>
        if isShuffleActive r
        then randomCalls p + length (filter (λ s, id s ≠ id t) q)
        else randomCalls p
    | None => randomCalls p
    end ∧
  isShuffleActive p' = isShuffleActive p ∧
  repeatMode p' = repeatMode p.
Proof.
  unfold_steps.
  destruct (resolve oldSongs t) as [song|];
    [destruct (isCurrent r song), (currentSong r), (isPlaying r), (file song)|];
    destruct queue as [q|], (isShuffleActive r); simpl; done.
Qed.

(** The stale branch. *)
Lemma playSong_aborts oldSongs r t queue p :
  resolve oldSongs t = None →
  let p' := pending (playSong random oldSongs r t queue p) in
  recentlyPlayed p' = evict t (recentlyPlayed p) ∧
  audio p' = audio p ∧
  currentSong p' = currentSong p ∧
  isPlaying p' = isPlaying p ∧
  alerts p' = S (alerts p).
Proof.
  intros Hstale. unfold_steps. rewrite Hstale.
  destruct queue as [q|], (isShuffleActive r); simpl; done.
Qed.


(** Another song, with its file: it becomes the current song and plays. *)
Lemma playSong_starts oldSongs r t queue p song f :
  resolve oldSongs t = Some song →
  file song = Some f →
  isCurrent r song = false →
  let p' := pending (playSong random oldSongs r t queue p) in
  currentSong p' = Some song ∧
  isPlaying p' = true ∧
  audio p' = audio p ++ [SetSrc f; Play] ∧
  recentlyPlayed p' = promote song (recentlyPlayed p).
Proof.
  intros Hsong Hfile Hother. unfold_steps. rewrite Hsong, Hother, Hfile.
  destruct queue as [q|], (isShuffleActive r); simpl;
    rewrite <- ?(assoc_L (++)); done.
Qed.

(** [playNext] at the last index. *)
Lemma playNext_at_end oldSongs r p current i :
  currentSong r = Some current →
  findIndex (λ s, id s = id current) (activeQueue r) = Z.of_nat i →
  S i = length (activeQueue r) →
  playNext random oldSongs r p =
    match repeatMode r with
    | RepeatAll =>
        match activeQueue r !! 0 with
        | Some first => playSong random oldSongs r first (Some (currentQueue r)) p
        | None => Threw p
        end
    | _ => Returned (with_isPlaying false p)
    end.
Proof.
  intros Hcur Hidx Hlast.
  rewrite (playNext_found random oldSongs r current i Hcur Hidx).
  rewrite decide_False by lia.
  destruct (repeatMode r); try done.
  unfold playAt. change 0%Z with (Z.of_nat 0). rewrite at_index_of_nat.
  by destruct (activeQueue r !! 0).
Qed.

(** [playNext] before the last index. *)
Lemma playNext_goes_on oldSongs r p current i x :
  currentSong r = Some current →
  findIndex (λ s, id s = id current) (activeQueue r) = Z.of_nat i →
  activeQueue r !! S i = Some x →
  playNext random oldSongs r p =
    playSong random oldSongs r x (Some (currentQueue r)) p.
Proof.
  intros Hcur Hidx Hx.
  rewrite (playNext_found random oldSongs r current i Hcur Hidx).
  rewrite decide_True by (by eapply lookup_lt_Some).
  unfold playAt. by rewrite at_index_of_nat, Hx.
Qed.

Lemma playPrevious_goes_back oldSongs r p current i x :
  currentSong r = Some current →
  findIndex (λ s, id s = id current) (activeQueue r) = Z.of_nat i →
  at_index (activeQueue r)
    ((Z.of_nat i - 1 + Z.of_nat (length (activeQueue r)))
       `rem` Z.of_nat (length (activeQueue r)))%Z = Some x →
  playPrevious random oldSongs r p =
    playSong random oldSongs r x (Some (currentQueue r)) p.
Proof.
  intros Hcur Hidx Hx.
  rewrite (playPrevious_found random oldSongs r current i Hcur Hidx).
  unfold playAt. by rewrite Hx.
Qed.
End Closures.

(** *** Next at the end of the queue *)

(** The three ways in which the application runs [playNext]: the Next
    button with the closure of the render on screen, the media key with the
    repeat mode (and the library) of the render that registered it, the
    [ended] listener, unless the repeat mode is one, with the [isPlaying]
    (and the library) of the render that attached it. *)
Lemma playNext_callers (random : nat → Random01) (app : App) :
  player (fire random PressNext app)
    = pending (playNext random (library app) (player app) (player app)) ∧
  (∀ staleRepeatMode staleSongs,
     player (fire random (MediaNext staleRepeatMode staleSongs) app)
       = pending (playNext random (take staleSongs (library app))
                    (with_repeatMode staleRepeatMode (player app)) (player app))) ∧
  (∀ staleIsPlaying staleSongs,
     repeatMode (player app) ≠ RepeatOne →
     player (fire random (AudioEnded staleIsPlaying staleSongs) app)
       = pending (playNext random (take staleSongs (library app))
                    (with_isPlaying staleIsPlaying (player app)) (player app))).
Proof.
  split_and!; [done..|]. intros b n Hmode. simpl. unfold handleEnded. simpl.
  by destruct (repeatMode (player app)).
Qed.

(** C2, as the code has it.  [playNext] runs as the closure of a render [r]
    (see [playNext_callers]) and its updates land on the session [p].  The
    current song sits at the last index of the active queue.  Under repeat
    off or one, as [r] has it, [playNext] stops: [isPlaying] is false and
    the current song stays.  Under repeat all, as [r] has it, it calls
    [playSong] on the first track of the active queue: when that track
    resolves to a song with its file and of another id than the current
    song's, that song is current and [isPlaying] is true; when it is stale,
    the play aborts and the current song and [isPlaying] are what they
    were. *)
Theorem next_at_last_index
    (random : nat → Random01) (oldSongs : list Track) (r p : Player)
    (current : Track) (i : nat) :
  currentSong r = Some current →
  findIndex (λ s, id s = id current) (activeQueue r) = Z.of_nat i →
  S i = length (activeQueue r) →
  let p' := pending (playNext random oldSongs r p) in
  (repeatMode r = RepeatOff ∨ repeatMode r = RepeatOne →
   isPlaying p' = false ∧ currentSong p' = currentSong p) ∧
  (repeatMode r = RepeatAll →
   ∀ first, activeQueue r !! 0 = Some first →
     p' = pending (playSong random oldSongs r first (Some (currentQueue r)) p) ∧
     (∀ song, resolve oldSongs first = Some song → is_Some (file song) →
        id first ≠ id current →
        currentSong p' = Some song ∧ isPlaying p' = true) ∧
     (resolve oldSongs first = None →
        currentSong p' = currentSong p ∧ isPlaying p' = isPlaying p)).
Proof.
  intros Hcur Hidx Hlast. simpl.
  rewrite (playNext_at_end random oldSongs r p current i Hcur Hidx Hlast). split.
  - intros [Hmode|Hmode]; by rewrite Hmode.
  - intros Hmode first Hfirst. rewrite Hmode, Hfirst. split_and!; [done|..].
    + intros song Hsong [f Hfile] Hother.
      assert (isCurrent r song = false) as Hnot.
      { unfold isCurrent. rewrite Hcur. apply bool_decide_eq_false.
        rewrite (resolve_id oldSongs first song Hsong). congruence. }
      by destruct (playSong_starts random oldSongs r first (Some (currentQueue r)) p
                     song f Hsong Hfile Hnot) as (-> & -> & _).
    + intros Hstale.
      by destruct (playSong_aborts random oldSongs r first (Some (currentQueue r)) p
                     Hstale) as (_ & _ & -> & -> & _).
Qed.

(** [songA] plays as the last of the queue [B, C, A] under repeat all.  The
    media key, registered while the repeat mode was off, stops; the Next
    button goes on with [songB]. *)
Lemma next_at_last_index_example :
  let p := playingA [songB; songC; songA] RepeatAll in
  (let p' := pending (playNext sampleRandom [songA; songB; songC]
                        (with_repeatMode RepeatOff p) p) in
   isPlaying p' = false ∧ currentSong p' = currentSong p) ∧
  (let p' := pending (playNext sampleRandom [songA; songB; songC] p p) in
   currentSong p' = Some songB ∧ isPlaying p' = true).
Proof.
  split.
  - apply (next_at_last_index sampleRandom [songA; songB; songC]
             (with_repeatMode RepeatOff (playingA [songB; songC; songA] RepeatAll))
             (playingA [songB; songC; songA] RepeatAll) songA 2);
      [reflexivity..|by left].
  - destruct (next_at_last_index sampleRandom [songA; songB; songC]
                (playingA [songB; songC; songA] RepeatAll)
                (playingA [songB; songC; songA] RepeatAll) songA 2)
      as [_ Hall]; [reflexivity..|].
    destruct (Hall eq_refl songB eq_refl) as (_ & Hlive & _).
    apply (Hlive songB); [reflexivity|by eexists|done].
Defined.

(** *** Playing the current song again *)





(** *** Next and previous under shuffle *)

(** C10 as stated fails for a [playNext] that stops.  In the sample
    session, after the click on the stale entry, shuffle is on, the plain
    queue is [A, S], the shuffled queue is [S, A] and [songA], its last
    track, is current; the repeat mode is off.  [playNext] sets [isPlaying]
    to false and calls no [playSong]: the shuffled queue is what it was and
    no random number is drawn, while a rebuilding around any track would
    draw one. *)
Lemma next_at_the_end_rebuilds_nothing :
  let app := run sampleRandom (earlierSession ++ sampleStart ++ [ClickRecent 1])
               (startApp []) in
  let st := player app in
  let st' := next sampleRandom (library app) st in
  isShuffleActive st = true ∧
  currentQueue st = [songA; staleS] ∧
  shuffledQueue st = [staleS; songA] ∧
  currentSong st = Some songA ∧
  st' = with_isPlaying false st ∧
  shuffledQueue st' = [staleS; songA] ∧
  ∀ x, randomCalls st' ≠
       randomCalls st + length (filter (λ s, id s ≠ id x) (currentQueue st)).
Proof.
  split_and!; try (vm_compute; reflexivity).
  intros x. vm_compute randomCalls.
  change (currentQueue _) with [songA; staleS].
  rewrite !filter_cons, filter_nil.
  destruct (decide (id songA ≠ id x)) as [?|Ha], (decide (id staleS ≠ id x)) as [?|Hs];
    simpl; try lia.
  exfalso. apply Ha. intros Ha'. apply Hs. intros Hs'.
  rewrite <- Ha' in Hs'. discriminate.
Qed.

(** C10, as the code has it.  [playNext] and [playPrevious] run as the
    closure of a render [r] and their updates land on the session [p].
    Under shuffle, a [playNext] or [playPrevious] that goes to a track [x]
    of the shuffled queue calls [playSong(x, currentQueue)]: the shuffled
    queue it leaves is [x] followed by a new shuffle (drawn from numbers not
    drawn before) of the plain queue without [x], whatever order the
    shuffled queue had.  A [playNext] that finds the current song last under
    repeat off or one goes to no track: it sets [isPlaying] to false and
    leaves the shuffled queue and the random source alone. *)
Theorem next_previous_rebuild_shuffle
    (random : nat → Random01) (oldSongs : list Track) (r p : Player)
    (current : Track) (i : nat) :
  isShuffleActive r = true →
  currentSong r = Some current →
  findIndex (λ s, id s = id current) (shuffledQueue r) = Z.of_nat i →
  let rebuilt p' x :=
    shuffledQueue p' = buildShuffledQueue random (randomCalls p) (currentQueue r) x ∧
    tail (shuffledQueue p') ≡ₚ filter (λ s, id s ≠ id x) (currentQueue r) ∧
    randomCalls p' =
      randomCalls p + length (filter (λ s, id s ≠ id x) (currentQueue r)) in
  (∀ x,
     shuffledQueue r !! S i = Some x ∨
     (S i = length (shuffledQueue r) ∧ repeatMode r = RepeatAll ∧
      shuffledQueue r !! 0 = Some x) →
     rebuilt (pending (playNext random oldSongs r p)) x) ∧
  (∀ x,
     at_index (shuffledQueue r)
       ((Z.of_nat i - 1 + Z.of_nat (length (shuffledQueue r)))
          `rem` Z.of_nat (length (shuffledQueue r)))%Z = Some x →
     rebuilt (pending (playPrevious random oldSongs r p)) x) ∧
  (S i = length (shuffledQueue r) → repeatMode r ≠ RepeatAll →
   pending (playNext random oldSongs r p) = with_isPlaying false p).
Proof.
  intros Hshuffle Hcur Hidx.
  assert (activeQueue r = shuffledQueue r) as Hactive
    by (unfold activeQueue; by rewrite Hshuffle).
  assert (∀ x,
    let p' := pending (playSong random oldSongs r x (Some (currentQueue r)) p) in
    shuffledQueue p' = buildShuffledQueue random (randomCalls p) (currentQueue r) x ∧
    tail (shuffledQueue p') ≡ₚ filter (λ s, id s ≠ id x) (currentQueue r) ∧
    randomCalls p' =
      randomCalls p + length (filter (λ s, id s ≠ id x) (currentQueue r)))
    as Hplay.
  { intros x. simpl.
    destruct (playSong_queues random oldSongs r x (Some (currentQueue r)) p)
      as (_ & -> & -> & _).
    rewrite Hshuffle. split_and!; [done| |done].
    apply shuffleArray_Permutation. }
  rewrite <- Hactive in Hidx. simpl. split_and!.
  - intros x [Hx|(Hlast & Hmode & Hx)]; rewrite <- Hactive in *.
    + rewrite (playNext_goes_on random oldSongs r p current i x) by done. apply Hplay.
    + rewrite (playNext_at_end random oldSongs r p current i) by done.
      rewrite Hmode, Hx. apply Hplay.
  - intros x Hx. rewrite <- Hactive in Hx.
    rewrite (playPrevious_goes_back random oldSongs r p current i x) by done.
    apply Hplay.
  - intros Hlast Hmode. rewrite <- Hactive in Hlast.
    rewrite (playNext_at_end random oldSongs r p current i) by done.
    by destruct (repeatMode r).
Qed.

(** In the session [shufflingA], next goes to [songC] and leaves the shuffled
    queue [C, B, A]; previous goes to [songB] and leaves [B, C, A]: neither
    walks on through [A, C, B]. *)
Lemma next_previous_rebuild_shuffle_example :
  shuffledQueue (pending (playNext sampleRandom [songA; songB; songC]
                            shufflingA shufflingA))
    = [songC; songB; songA] ∧
  shuffledQueue (pending (playPrevious sampleRandom [songA; songB; songC]
                            shufflingA shufflingA))
    = [songB; songC; songA].
Proof.
  destruct (next_previous_rebuild_shuffle sampleRandom [songA; songB; songC]
              shufflingA shufflingA songA 0) as (Hnext & Hprevious & _);
    try reflexivity.
  split.
  - destruct (Hnext songC) as (-> & _); [by left|reflexivity].
  - destruct (Hprevious songB) as (-> & _); reflexivity.
Defined.

(** ** The current song stays in the active queue *)

Section QueuedFacts.
Variable random : nat → Random01.
Implicit Types (songs oldSongs q : list Track) (r p : Player) (t song : Track).














End QueuedFacts.


